(** * A shallow embedding of the mrq worker core ([mrq/worker.py])

    The worker is modelled as:
    - the exception classes it raises and catches ([ExcClass]) with Python's
      [isinstance] over their ancestor lists;
    - [perform_job], split into its prologue (slot-local job, timeout armed)
      and its body (the [try]/[except]/[finally] of the source);
    - [report_worker], producing the MongoDB upsert of the heartbeat;
    - the signal handlers of [install_signal_handlers];
    - [dequeue_jobs] over a Redis list store;
    - [work_loop] as a labelled step function on a world state, where labels
      carry the choices of the environment (slots finishing, signals,
      monitoring ticks, producers pushing job ids).
    Every operation appends the side effects it performs to an effect trace.
    Calls to [self.log] are not modelled. *)

From Stdlib Require Import String Ascii ZArith.
From stdpp Require Import base gmap strings list pretty.

Local Open Scope string_scope.
#[local] Set Warnings "-register-all".

(** Python values, as stored in the worker's configuration dict. *)
Inductive PyVal :=
| PyNone
| PyBool (b : bool)
| PyInt (z : Z)
| PyStr (s : string)
| PyList (l : list PyVal).

(** Python truthiness ([if x:]). *)
Definition py_truthy (v : PyVal) : bool :=
  match v with
  | PyNone => false
  | PyBool b => b
  | PyInt z => negb (Z.eqb z 0)
  | PyStr s => negb (String.eqb s "")
  | PyList l => negb (Nat.eqb (length l) 0)
  end.

(** Exception classes seen by the worker. [UserException n] stands for a
    task-defined subclass of [Exception]; [UserBaseException n] for a
    subclass of [BaseException] outside [Exception] ([SystemExit],
    [GreenletExit], ...). *)
Inductive ExcClass :=
| BaseException
| Exception
| JobTimeoutException
| JobInterrupt
| StopRequested
| UserException (n : nat)
| UserBaseException (n : nat).

#[global] Instance ExcClass_eq_dec : EqDecision ExcClass.
Proof. solve_decision. Defined.

(** Outcome of a call: it returns, or it raises an instance of a class. *)
Inductive Outcome :=
| Returns
| Raises (c : ExcClass).

Definition raised (o : Outcome) : option ExcClass :=
  match o with Returns => None | Raises c => Some c end.

(** The payload of a job, loaded by the [Job] class (mrq/job.py) from the
    jobs collection: [job.data["path"]] when [job.data] is set,
    [job.datestarted], [job.timeout] and [job.retry_on_exceptions]. *)
Record JobData := {
  jd_path : option string;
  jd_datestarted : option nat;
  jd_timeout : nat;
  jd_retry_on : list ExcClass
}.

(** A materialised [Job(job_id, worker=self, queue=queue, start=True)]. *)
Record Job := {
  job_id : string;
  job_queue : string;
  job_start : bool;
  job_data : JobData
}.

(** The heartbeat document of [report_worker]: one [SlotSnap] per live
    greenlet of the pool; the fields of the current job are [None] when no
    job is bound to the greenlet. *)
Record SlotSnap := {
  ss_stack : list string;
  ss_path : option string;
  ss_datestarted : option nat;
  ss_id : option string
}.

Record Heartbeat := {
  hb_status : string;
  hb_config : gmap string PyVal;
  hb_done_jobs : nat;
  hb_datestarted : nat;
  hb_datereported : nat;
  hb_name : string;
  hb_id : nat;
  hb_pid : nat;
  hb_cpu_user : nat;
  hb_cpu_system : nat;
  hb_cpu_percent : nat;
  hb_rss : nat;
  hb_jobs : list SlotSnap
}.

(** Effects performed by the worker, in the order they happen. *)
Inductive Effect :=
| ESetCurrentJob (gid : nat) (jid : option string)
| ETimeoutStart (gid : nat) (seconds : nat)
| ETimeoutCancel (gid : nat)
| EPerform (gid : nat) (jid : string)
| ESaveRetry (jid : string) (exc : ExcClass)
| ESaveStatus (jid : string) (st : string)
| ESlotRaised (gid : nat) (exc : ExcClass)
| EStatus (st : string)
| EBlpop (keys : list string)
| ELpop (key : string)
| EPipelineExecute
| EJobFetchStart (jid : string)
| ESpawn (gid : nat) (jid : string)
| ESleep
| EGreenletSpawn (gname : string)
| ESchedulerCheck
| EPoolJoin
| EPoolKill (exc : ExcClass) (block : bool)
| EGreenletKill (gname : string) (block : bool)
| EMongoUpdate (db coll : string) (selector_id : nat) (doc : Heartbeat)
    (upsert : bool) (w : nat)
| EFlushLogs (w : nat)
| EPrintStats.

Section WorkerModel.

(** Whether [JobTimeoutException], [JobInterrupt] and [StopRequested]
    (mrq/exceptions.py, not part of the sources) derive from [Exception]
    ([true]) or directly from [BaseException] ([false]). *)
Variable mrq_exc_under_Exception : bool.

(** The payload the jobs collection holds for a job id. *)
Variable job_payload : string -> JobData.

(** [Queue(x).redis_key] (mrq/queue.py, not part of the sources). *)
Variable queue_redis_key : string -> string.

Definition ancestors (c : ExcClass) : list ExcClass :=
  let mrq_bases :=
    if mrq_exc_under_Exception then [Exception; BaseException]
    else [BaseException] in
  match c with
  | BaseException => [BaseException]
  | Exception => [Exception; BaseException]
  | JobTimeoutException => JobTimeoutException :: mrq_bases
  | JobInterrupt => JobInterrupt :: mrq_bases
  | StopRequested => StopRequested :: mrq_bases
  | UserException n => [UserException n; Exception; BaseException]
  | UserBaseException n => [UserBaseException n; BaseException]
  end.

(** [isinstance(e, d)] for an exception [e] of class [c]. *)
Definition isinstance (c d : ExcClass) : bool := bool_decide (d ∈ ancestors c).

(** [except (d1, ..., dn):] matches an exception of class [c]. *)
Definition isinstance_any (c : ExcClass) (ds : list ExcClass) : bool :=
  existsb (isinstance c) ds.

(** [self.job_class(job_id, worker=self, queue=queue, start=True)]. *)
Definition job_class (jid queue : string) (start : bool) : Job :=
  {| job_id := jid; job_queue := queue; job_start := start;
     job_data := job_payload jid |}.

(** ** Slot-local job state *)

(** Modelled from the spec: [set_current_job] of mrq/context.py (not part
    of the sources) registers the job in the slot-local state of the
    current greenlet [gid], looked up with [get_current_job(gid)];
    [set_current_job(None)] clears it. *)
Definition set_current_job (gid : nat) (j : option Job) (ctx : gmap nat Job)
  : gmap nat Job :=
  match j with
  | Some j => <[gid := j]> ctx
  | None => delete gid ctx
  end.

Definition get_current_job (ctx : gmap nat Job) (gid : nat) : option Job :=
  ctx !! gid.

(** ** [Worker.perform_job] *)

(** Lines 287-293: bind the job to the slot and arm the gevent timeout. *)
Definition perform_job_prologue (gid : nat) (j : Job) (ctx : gmap nat Job)
  : gmap nat Job * list Effect :=
  (set_current_job gid (Some j) ctx,
   [ESetCurrentJob gid (Some (job_id j)); ETimeoutStart gid (jd_timeout (job_data j))]).

(** The [except] clauses of lines 298-315, tried in order, for an exception
    of class [c] raised by [job.perform()]. [save_res] is the outcome of the
    persistence call made by the handler; an exception it raises leaves the
    handler. Returns the effects and the exception leaving the [try]. *)
Definition handle_exception (j : Job) (c : ExcClass) (save_res : Outcome)
  : list Effect * option ExcClass :=
  if isinstance_any c (jd_retry_on (job_data j)) then
    ([ESaveRetry (job_id j) c], raised save_res)
  else if isinstance c JobTimeoutException then
    ([ESaveStatus (job_id j) "timeout"], raised save_res)
  else if isinstance c JobInterrupt then
    ([ESaveStatus (job_id j) "interrupt"], raised save_res)
  else if isinstance c Exception then
    ([ESaveStatus (job_id j) "failed"], raised save_res)
  else ([], Some c).

(** Lines 295-319: [job.perform()] with outcome [perform_res], the
    handlers, then the [finally] clause. The exception returned is the one
    that leaves the greenlet. *)
Definition perform_job_body (gid : nat) (j : Job) (ctx : gmap nat Job)
    (perform_res save_res : Outcome)
  : gmap nat Job * list Effect * option ExcClass :=
  let '(handled, escaped) :=
    match perform_res with
    | Returns => ([], None)
    | Raises c => handle_exception j c save_res
    end in
  (set_current_job gid None ctx,
   ([EPerform gid (job_id j)] ++ handled ++ [ETimeoutCancel gid; ESetCurrentJob gid None])%list,
   escaped).

Definition perform_job (gid : nat) (j : Job) (ctx : gmap nat Job)
    (perform_res save_res : Outcome)
  : gmap nat Job * list Effect * option ExcClass :=
  let '(ctx1, pro) := perform_job_prologue gid j ctx in
  let '(ctx2, body, escaped) := perform_job_body gid j ctx1 perform_res save_res in
  (ctx2, (pro ++ body)%list, escaped).

(** ** The worker object *)

(** The attributes of [Worker] (lines 35-75) that the core reads or
    writes. [max_jobs] is [0] when the configuration has [None] or [0];
    [wid] is [self.id]; [greenlets] lists the keys of [self.greenlets]
    (a dict: the list order stands for the order Python iterates it);
    [profiler] is [self.profiler is not None]. *)
Record Worker := {
  config : gmap string PyVal;
  datestarted : nat;
  status : string;
  queues : list string;
  redis_queues : list string;
  done_jobs : nat;
  max_jobs : nat;
  wid : nat;
  name : string;
  pool_size : nat;
  greenlets : list string;
  profiler : bool;
  graceful_stop : bool
}.

Definition set_status (st : string) (w : Worker) : Worker :=
  {| config := config w; datestarted := datestarted w; status := st;
     queues := queues w; redis_queues := redis_queues w;
     done_jobs := done_jobs w; max_jobs := max_jobs w; wid := wid w;
     name := name w; pool_size := pool_size w; greenlets := greenlets w;
     profiler := profiler w; graceful_stop := graceful_stop w |}.

Definition set_done_jobs (n : nat) (w : Worker) : Worker :=
  {| config := config w; datestarted := datestarted w; status := status w;
     queues := queues w; redis_queues := redis_queues w;
     done_jobs := n; max_jobs := max_jobs w; wid := wid w;
     name := name w; pool_size := pool_size w; greenlets := greenlets w;
     profiler := profiler w; graceful_stop := graceful_stop w |}.

Definition set_greenlets (gs : list string) (w : Worker) : Worker :=
  {| config := config w; datestarted := datestarted w; status := status w;
     queues := queues w; redis_queues := redis_queues w;
     done_jobs := done_jobs w; max_jobs := max_jobs w; wid := wid w;
     name := name w; pool_size := pool_size w; greenlets := gs;
     profiler := profiler w; graceful_stop := graceful_stop w |}.

Definition set_graceful_stop (b : bool) (w : Worker) : Worker :=
  {| config := config w; datestarted := datestarted w; status := status w;
     queues := queues w; redis_queues := redis_queues w;
     done_jobs := done_jobs w; max_jobs := max_jobs w; wid := wid w;
     name := name w; pool_size := pool_size w; greenlets := greenlets w;
     profiler := profiler w; graceful_stop := b |}.

(** A greenlet of the gevent pool: its id, the job it was spawned with, and
    whether it has started running [perform_job]. *)
Record Slot := {
  sl_gid : nat;
  sl_job : Job;
  sl_running : bool
}.

(** ** [Worker.report_worker] *)

(** Process metrics and the clock, read from the environment: psutil's
    values, [datetime.utcnow()] and the call stack of each greenlet. *)
Record Metrics := {
  m_pid : nat;
  m_cpu_user : nat;
  m_cpu_system : nat;
  m_cpu_percent : nat;
  m_rss : nat;
  m_now : nat;
  m_stack : nat -> list string
}.

(** Lines 128-131: the frames after the first, up to the gevent hub. *)
Fixpoint cut_at_hub (frames : list string) : list string :=
  match frames with
  | [] => []
  | s :: rest =>
      match String.index 0 "/gevent/hub.py" s with
      | Some _ => []
      | None => s :: cut_at_hub rest
      end
  end.

(** Lines 125-140. *)
Definition slot_snapshot (ctx : gmap nat Job) (m : Metrics) (sl : Slot) : SlotSnap :=
  let short_stack := cut_at_hub (tail (m_stack m (sl_gid sl))) in
  match get_current_job ctx (sl_gid sl) with
  | Some j =>
      {| ss_stack := short_stack; ss_path := jd_path (job_data j);
         ss_datestarted := jd_datestarted (job_data j); ss_id := Some (job_id j) |}
  | None =>
      {| ss_stack := short_stack; ss_path := None;
         ss_datestarted := None; ss_id := None |}
  end.

(** Lines 144-150. *)
Definition whitelisted_config : list string :=
  ["max_jobs"; "pool_size"; "queues"; "name"].

(** Line 156: [{k: v for k, v in self.config.iteritems() if k in whitelisted_config}]. *)
Definition config_snapshot (cfg : gmap string PyVal) : gmap string PyVal :=
  filter (fun kv : string * PyVal => kv.1 ∈ whitelisted_config) cfg.

(** Lines 120-181: the upsert into [mongodb_logs.mrq_workers] keyed by
    [_id = self.id], with write concern [w]. *)
Definition report_worker (w : Worker) (pool : list Slot) (ctx : gmap nat Job)
    (m : Metrics) (wlevel : nat) : Effect :=
  EMongoUpdate "mongodb_logs" "mrq_workers" (wid w)
    {| hb_status := status w;
       hb_config := config_snapshot (config w);
       hb_done_jobs := done_jobs w;
       hb_datestarted := datestarted w;
       hb_datereported := m_now m;
       hb_name := name w;
       hb_id := wid w;
       hb_pid := m_pid m;
       hb_cpu_user := m_cpu_user m;
       hb_cpu_system := m_cpu_system m;
       hb_cpu_percent := m_cpu_percent m;
       hb_rss := m_rss m;
       hb_jobs := map (slot_snapshot ctx m) pool |}
    true wlevel.

(** ** Signal handlers (lines 321-358) *)

Inductive Signal := SIGINT | SIGTERM.

(** [shutdown_now]: lines 327-335. Every handler raises [StopRequested]. *)
Definition shutdown_now (w : Worker) : Worker * list Effect * Outcome :=
  (set_status "killing" w,
   [EStatus "killing"; EPoolKill JobInterrupt false],
   Raises StopRequested).

(** [shutdown_graceful]: lines 321-325. *)
Definition shutdown_graceful (w : Worker) : Worker * list Effect * Outcome :=
  (w, [], Raises StopRequested).

(** [request_shutdown_graceful]: lines 345-352. *)
Definition request_shutdown_graceful (w : Worker) : Worker * list Effect * Outcome :=
  if graceful_stop w then shutdown_now w
  else shutdown_graceful (set_graceful_stop true w).

(** The handlers registered by [gevent.signal] at lines 355 and 358. *)
Definition handle_signal (sg : Signal) (w : Worker) : Worker * list Effect * Outcome :=
  match sg with
  | SIGINT => request_shutdown_graceful w
  | SIGTERM => shutdown_now w
  end.

(** ** Redis lists and [Worker.dequeue_jobs] *)

(** A Redis list per key; a missing key is an empty list. *)
Abbreviation RedisStore := (gmap string (list string)).

(** [BLPOP keys 0]: pops the head of the first non-empty list in the order
    of [keys]; [None] when every list is empty (the call blocks). With no
    key at all, redis-py sends [BLPOP 0], which Redis answers with an error;
    that case is outside this model, where [None] on [[]] does not stand for
    a blocked call. *)
Fixpoint blpop (r : RedisStore) (keys : list string)
  : option (string * string * RedisStore) :=
  match keys with
  | [] => None
  | k :: ks =>
      match r !! k with
      | Some (x :: xs) => Some (k, x, <[k := xs]> r)
      | _ => blpop r ks
      end
  end.

(** [LPOP key]: the head, or [None] (nil reply) on an empty list. *)
Definition lpop (r : RedisStore) (k : string) : option string * RedisStore :=
  match r !! k with
  | Some (x :: xs) => (Some x, <[k := xs]> r)
  | _ => (None, r)
  end.

(** The replies of [n] pipelined [LPOP key] commands, in order. *)
Fixpoint lpop_n (r : RedisStore) (k : string) (n : nat)
  : list (option string) * RedisStore :=
  match n with
  | 0 => ([], r)
  | S n' =>
      let '(x, r1) := lpop r k in
      let '(xs, r2) := lpop_n r1 k n' in
      (x :: xs, r2)
  end.

(** [[_job_id for _job_id in job_ids if _job_id]]. *)
Definition truthy_ids (job_ids : list (option string)) : list string :=
  omap (fun o => match o with
                 | Some s => if String.eqb s "" then None else Some s
                 | None => None
                 end) job_ids.

(** Lines 186-211. [None] when the blocking pop blocks. *)
Definition dequeue_jobs (r : RedisStore) (keys : list string) (max_jobs : nat)
  : option (list Job * RedisStore * list Effect) :=
  match blpop r keys with
  | None => None
  | Some (queue, jid, r1) =>
      let first := job_class jid queue true in
      if Nat.ltb 1 max_jobs then
        let '(job_ids, r2) := lpop_n r1 queue (max_jobs - 1) in
        let more := map (fun i => job_class i queue true) (truthy_ids job_ids) in
        Some (first :: more, r2,
              [EBlpop keys; EJobFetchStart jid]
              ++ repeat (ELpop queue) (max_jobs - 1) ++ [EPipelineExecute]
              ++ map (fun i => EJobFetchStart i) (truthy_ids job_ids))%list
      else Some ([first], r1, [EBlpop keys; EJobFetchStart jid])
  end.

(** ** [Worker.__init__] (lines 33-75) *)

Definition cfg_get (cfg : gmap string PyVal) (k : string) : option PyVal := cfg !! k.

Definition py_int_nat (v : PyVal) : option nat :=
  match v with
  | PyInt z => Some (Z.to_nat z)
  | PyNone => Some 0
  | _ => None
  end.

(** [[x for x in self.config["queues"] if x]], for a list of strings. *)
Definition py_queue_names (v : PyVal) : option (list string) :=
  match v with
  | PyList l =>
      mapM (fun x => match x with PyStr s => Some s | _ => None end)
        (filter (fun x => py_truthy x = true) l)
  | _ => None
  end.

(** [None] when a configuration key is missing ([KeyError]) or holds a
    value of a type the model does not cover (a non-string truthy name, a
    non-integer [max_jobs]). [default_name] is [make_name()]. A [pool_size]
    of [None], which makes gevent's pool unbounded, is read as 0 here. *)
Definition worker_init (cfg : gmap string PyVal) (wid0 started : nat)
    (default_name : string) : option Worker :=
  qv ← cfg_get cfg "queues";
  qs ← py_queue_names qv;
  mj ← cfg_get cfg "max_jobs" ≫= py_int_nat;
  nv ← cfg_get cfg "name";
  nm ← (if py_truthy nv then
          match nv with PyStr s => Some s | _ => None end
        else Some default_name);
  ps ← cfg_get cfg "pool_size" ≫= py_int_nat;
  _ ← cfg_get cfg "quiet";
  pv ← cfg_get cfg "profile";
  Some {| config := cfg; datestarted := started; status := "init";
          queues := qs; redis_queues := map queue_redis_key qs;
          done_jobs := 0; max_jobs := mj; wid := wid0; name := nm;
          pool_size := ps; greenlets := []; profiler := py_truthy pv;
          graceful_stop := false |}.

(** ** [Worker.work_loop] as a step function *)

(** Where the main greenlet is. [PFetch free] is line 241 with
    [free_pool_slots = free]; [PDispatch jobs] is the [for] loop of lines
    243-247 with the jobs not yet spawned; [PFinalize] is the [finally]
    clause of lines 256-279. [PCrashed e] is an exception that ends the
    process: [KeyError] at line 224, or the pool's [PoolFull] if [spawn]
    were called on a full pool (spec 4.E). *)
Inductive PC :=
| PInit
| PWait
| PFetch (free : nat)
| PDispatch (jobs : list Job)
| PFinalize
| PDone
| PCrashed (e : string).

Record World := {
  wk : Worker;
  pool : list Slot;
  next_gid : nat;
  ctx : gmap nat Job;
  redis : RedisStore;
  pc : PC;
  trace : list Effect
}.

(** Where the main greenlet waits, after the join, when a signal's handler
    runs: in the blocking kill of the pool (line 269), in the blocking kill
    of the background greenlet at index [k] (line 272), or in the upsert of
    the final heartbeat (line 275). *)
Inductive FinalStage :=
| FSPoolKill
| FSGreenletKill (k : nat)
| FSReport.

(** Who moves next, with the choices of the environment:
    - [LMain]: the main greenlet runs up to its next suspension point;
    - [LFinalize join_sig m]: the finalizer runs on from the join;
      [join_sig] is a signal whose handler runs while [gevent_pool.join]
      waits (without one, the join returns only once the pool is empty);
    - [LFinalizeInterrupted join_sig st sg]: the same, but the handler of
      [sg] runs while the main greenlet waits at stage [st];
    - [LSlotStart gid], [LSlotEnd gid perform_res save_res]: a pool greenlet
      runs the prologue, then the rest of [perform_job];
    - [LMonitor m], [LScheduler]: one iteration of a background greenlet;
    - [LSignal sg]: a signal handler runs while the main greenlet waits;
    - [LPush key jid]: a producer pushes [jid] onto a Redis list. *)
Inductive Label :=
| LMain
| LFinalize (join_sig : option Signal) (m : Metrics)
| LSlotStart (gid : nat)
| LSlotEnd (gid : nat) (perform_res save_res : Outcome)
| LMonitor (m : Metrics)
| LScheduler
| LSignal (sg : Signal)
| LPush (key jid : string)
| LFinalizeInterrupted (join_sig : option Signal) (st : FinalStage) (sg : Signal).

(** [self.gevent_pool.free_count()]. *)
Definition free_count (s : World) : nat := pool_size (wk s) - length (pool s).

Definition with_main (s : World) (w : Worker) (p : list Slot) (g : nat)
    (r : RedisStore) (c : PC) (effs : list Effect) : World :=
  {| wk := w; pool := p; next_gid := g; ctx := ctx s; redis := r; pc := c;
     trace := (trace s ++ effs)%list |}.

Definition with_slots (s : World) (w : Worker) (p : list Slot)
    (cx : gmap nat Job) (c : PC) (effs : list Effect) : World :=
  {| wk := w; pool := p; next_gid := next_gid s; ctx := cx; redis := redis s;
     pc := c; trace := (trace s ++ effs)%list |}.

Definition in_loop (c : PC) : bool :=
  match c with PWait | PFetch _ | PDispatch _ => true | _ => false end.

(** Line 249: [if self.max_jobs and self.max_jobs >= self.done_jobs]. *)
Definition max_jobs_reached (w : Worker) : bool :=
  negb (Nat.eqb (max_jobs w) 0) && Nat.leb (done_jobs w) (max_jobs w).

(** Lines 218-251: one move of the main greenlet. *)
Definition main_step (s : World) : option World :=
  let w := wk s in
  match pc s with
  | PInit =>
      (* lines 220-227 *)
      match cfg_get (config w) "scheduler" with
      | None => Some (with_main s w (pool s) (next_gid s) (redis s) (PCrashed "KeyError") [])
      | Some sv =>
          let sched := if py_truthy sv then ["scheduler"] else [] in
          let w1 := set_graceful_stop false
                      (set_greenlets (greenlets w ++ ["monitoring"] ++ sched)%list
                         (set_status "started" w)) in
          Some (with_main s w1 (pool s) (next_gid s) (redis s) PWait
                  ([EStatus "started"; EGreenletSpawn "monitoring"]
                   ++ map EGreenletSpawn sched)%list)
      end
  | PWait =>
      (* lines 233-237 *)
      let free := free_count s in
      if Nat.ltb 0 free then Some (with_main s w (pool s) (next_gid s) (redis s) (PFetch free) [])
      else Some (with_main s w (pool s) (next_gid s) (redis s) PWait [ESleep])
  | PFetch free =>
      (* line 241 *)
      match dequeue_jobs (redis s) (redis_queues w) free with
      | None => None
      | Some (jobs, r, effs) => Some (with_main s w (pool s) (next_gid s) r (PDispatch jobs) effs)
      end
  | PDispatch (j :: js) =>
      (* lines 245-247 *)
      if Nat.ltb 0 (free_count s) then
        let sl := {| sl_gid := next_gid s; sl_job := j; sl_running := false |} in
        Some (with_main s (set_done_jobs (S (done_jobs w)) w) (pool s ++ [sl])%list
                (S (next_gid s)) (redis s) (PDispatch js) [ESpawn (next_gid s) (job_id j)])
      else Some (with_main s w (pool s) (next_gid s) (redis s) (PCrashed "PoolFull") [])
  | PDispatch [] =>
      (* lines 249-251; the break enters the [finally] clause, which sets
         the status (line 261) and waits in the join (line 263) *)
      if max_jobs_reached w
      then Some (with_main s (set_status "stopping" w) (pool s) (next_gid s) (redis s) PFinalize
                   [EStatus "stopping"; EPoolJoin])
      else Some (with_main s w (pool s) (next_gid s) (redis s) PWait [])
  | _ => None
  end.

(** The blocking [gevent_pool.kill(exception=JobInterrupt, block=True)] of
    line 269: every greenlet that has started [perform_job] receives
    [JobInterrupt] in [job.perform()] and runs its handler (whose save
    returns) and its [finally] clause; a greenlet not yet started never
    runs. The pool is empty afterwards. gevent keeps the pool's greenlets
    in a set and their handlers run concurrently: the list order here, with
    each handler run to its end before the next, is one possible order of
    their effects. *)
Fixpoint kill_slots (p : list Slot) (cx : gmap nat Job) : gmap nat Job * list Effect :=
  match p with
  | [] => (cx, [])
  | sl :: rest =>
      if sl_running sl then
        let '(cx1, effs, _) :=
          perform_job_body (sl_gid sl) (sl_job sl) cx (Raises JobInterrupt) Returns in
        let '(cx2, effs2) := kill_slots rest cx1 in
        (cx2, (effs ++ effs2)%list)
      else kill_slots rest cx
  end.

(** Lines 269-279, after the join. *)
Definition finalize_rest (s : World) (w : Worker) (effs : list Effect) (m : Metrics)
  : World :=
  let '(cx, kill_effs) := kill_slots (pool s) (ctx s) in
  with_slots s w [] cx PDone
    (effs ++ [EPoolKill JobInterrupt true] ++ kill_effs
     ++ map (fun g => EGreenletKill g true) (greenlets w)
     ++ [report_worker w [] cx m 1; EFlushLogs 1]
     ++ (if profiler w then [EPrintStats] else []))%list.

(** Lines 263-279: the [finally] clause of [work_loop] from the join on
    (the status was set to "stopping" at line 261, when the main greenlet
    entered the clause). *)
Definition finalize (s : World) (join_sig : option Signal) (m : Metrics) : option World :=
  match join_sig with
  | None =>
      match pool s with
      | [] => Some (finalize_rest s (wk s) [] m)
      | _ => None
      end
  | Some sg =>
      let '(w2, effs, res) := handle_signal sg (wk s) in
      match res with
      | Raises c =>
          if decide (c = StopRequested)
          then Some (finalize_rest s w2 effs m)
          else Some (with_slots s w2 (pool s) (ctx s) (PCrashed "uncaught") effs)
      | Returns => Some (finalize_rest s w2 effs m)
      end
  end.

(** The background greenlets whose blocking kill (line 272) has been
    started when the main greenlet waits at stage [st]; [None] for an index
    past the list. *)
Definition killed_at (st : FinalStage) (gs : list string) : option (list string) :=
  match st with
  | FSPoolKill => Some []
  | FSGreenletKill k => if Nat.ltb k (length gs) then Some (take (S k) gs) else None
  | FSReport => Some gs
  end.

(** Lines 269-276 when a signal's handler runs while the main greenlet
    waits at stage [st]: the [StopRequested] it raises is not caught (only
    the join of line 263 is inside [try ... except StopRequested]), so it
    leaves the [finally] clause and [work_loop]; the later kills, the
    heartbeat of line 275 (whose upsert does not complete) and the flush of
    line 276 do not happen. The killed pool greenlets run their
    [JobInterrupt] handlers whether or not the main greenlet still waits for
    them; here they have run before the signal. *)
Definition finalize_interrupted_rest (s : World) (w : Worker) (effs : list Effect)
    (st : FinalStage) (sg : Signal) : option World :=
  match killed_at st (greenlets w) with
  | None => None
  | Some killed =>
      let '(cx, kill_effs) := kill_slots (pool s) (ctx s) in
      let '(w3, sig_effs, res) := handle_signal sg w in
      match res with
      | Raises _ =>
          Some (with_slots s w3 [] cx (PCrashed "uncaught")
                  (effs ++ [EPoolKill JobInterrupt true] ++ kill_effs
                   ++ map (fun g => EGreenletKill g true) killed
                   ++ sig_effs)%list)
      | Returns => None
      end
  end.

(** The [finally] clause of [work_loop] from the join on, with a signal
    handled after the join, at stage [st]. *)
Definition finalize_interrupted (s : World) (join_sig : option Signal) (st : FinalStage)
    (sg : Signal) : option World :=
  match join_sig with
  | None =>
      match pool s with
      | [] => finalize_interrupted_rest s (wk s) [] st sg
      | _ => None
      end
  | Some sg0 =>
      let '(w2, effs, res) := handle_signal sg0 (wk s) in
      match res with
      | Raises c =>
          if decide (c = StopRequested)
          then finalize_interrupted_rest s w2 effs st sg
          else None
      | Returns => finalize_interrupted_rest s w2 effs st sg
      end
  end.

Definition alive (c : PC) : bool :=
  match c with PDone | PCrashed _ => false | _ => true end.

Definition find_slot (p : list Slot) (gid : nat) : option Slot :=
  head (filter (fun sl => sl_gid sl = gid) p).

Definition mark_running (gid : nat) (p : list Slot) : list Slot :=
  map (fun sl => if Nat.eqb (sl_gid sl) gid
                 then {| sl_gid := sl_gid sl; sl_job := sl_job sl; sl_running := true |}
                 else sl) p.

Definition remove_slot (gid : nat) (p : list Slot) : list Slot :=
  filter (fun sl => sl_gid sl ≠ gid) p.

(** A pool greenlet enters [perform_job]. *)
Definition slot_start (s : World) (gid : nat) : option World :=
  match find_slot (pool s) gid with
  | Some sl =>
      if alive (pc s) && negb (sl_running sl) then
        let '(cx, effs) := perform_job_prologue gid (sl_job sl) (ctx s) in
        Some (with_slots s (wk s) (mark_running gid (pool s)) cx (pc s) effs)
      else None
  | None => None
  end.

(** A pool greenlet runs the rest of [perform_job] and exits; an exception
    leaving [perform_job] ends the greenlet (gevent reports it). gevent's
    hub re-raises a [SystemExit] or [KeyboardInterrupt] that escapes a
    greenlet in the main greenlet; the model does not follow it there. *)
Definition slot_end (s : World) (gid : nat) (perform_res save_res : Outcome)
  : option World :=
  match find_slot (pool s) gid with
  | Some sl =>
      if alive (pc s) && sl_running sl then
        let '(cx, effs, escaped) :=
          perform_job_body gid (sl_job sl) (ctx s) perform_res save_res in
        let died := match escaped with Some c => [ESlotRaised gid c] | None => [] end in
        Some (with_slots s (wk s) (remove_slot gid (pool s)) cx (pc s) (effs ++ died)%list)
      else None
  | None => None
  end.

(** Lines 112-118: one iteration of [greenlet_monitoring]. *)
Definition monitoring_tick (s : World) (m : Metrics) : option World :=
  if alive (pc s) && bool_decide ("monitoring" ∈ greenlets (wk s)) then
    Some (with_slots s (wk s) (pool s) (ctx s) (pc s)
            [report_worker (wk s) (pool s) (ctx s) m 0; EFlushLogs 0])
  else None.

(** Lines 102-104: one iteration of [greenlet_scheduler]. *)
Definition scheduler_tick (s : World) : option World :=
  if alive (pc s) && bool_decide ("scheduler" ∈ greenlets (wk s)) then
    Some (with_slots s (wk s) (pool s) (ctx s) (pc s) [ESchedulerCheck])
  else None.

(** A signal handler runs while the main greenlet is suspended (in the
    10 ms sleep or in [dequeue_jobs]); the exception it raises leaves the
    [while] loop, [StopRequested] is caught at line 253, and the [finally]
    clause follows: it sets the status (line 261) and waits in the join
    (line 263). The model takes the pops of [dequeue_jobs] and the
    construction of the jobs as one move, so a signal arrives before the
    blocking pop or after the jobs are built, never in between (where the
    code would lose the ids already popped). *)
Definition signal_step (s : World) (sg : Signal) : option World :=
  match pc s with
  | PWait | PFetch _ =>
      let '(w1, effs, res) := handle_signal sg (wk s) in
      match res with
      | Raises _ =>
          Some (with_slots s (set_status "stopping" w1) (pool s) (ctx s) PFinalize
                  (effs ++ [EStatus "stopping"; EPoolJoin])%list)
      | Returns => Some (with_slots s w1 (pool s) (ctx s) (pc s) effs)
      end
  | _ => None
  end.

(** [RPUSH key jid] by a producer. *)
Definition push_step (s : World) (key jid : string) : World :=
  {| wk := wk s; pool := pool s; next_gid := next_gid s; ctx := ctx s;
     redis := <[key := (default [] (redis s !! key) ++ [jid])%list]> (redis s);
     pc := pc s; trace := trace s |}.

Definition step (l : Label) (s : World) : option World :=
  match l with
  | LMain => main_step s
  | LFinalize js m =>
      match pc s with PFinalize => finalize s js m | _ => None end
  | LSlotStart gid => slot_start s gid
  | LSlotEnd gid pr sr => slot_end s gid pr sr
  | LMonitor m => monitoring_tick s m
  | LScheduler => scheduler_tick s
  | LSignal sg => signal_step s sg
  | LPush key jid => Some (push_step s key jid)
  | LFinalizeInterrupted js st sg =>
      match pc s with PFinalize => finalize_interrupted s js st sg | _ => None end
  end.

Fixpoint run (ls : list Label) (s : World) : option World :=
  match ls with
  | [] => Some s
  | l :: rest => step l s ≫= run rest
  end.

(** The world when [work_loop] is called on a freshly built worker. *)
Definition init_world (w : Worker) (r : RedisStore) : World :=
  {| wk := w; pool := []; next_gid := 0; ctx := ∅; redis := r; pc := PInit;
     trace := [] |}.

(** Persistence calls made on a job's record ([job.save_retry] and
    [job.save_status]). *)
Definition is_persistence (e : Effect) : bool :=
  match e with ESaveRetry _ _ | ESaveStatus _ _ => true | _ => false end.

Definition persistence_calls (effs : list Effect) : list Effect :=
  filter (fun e => is_persistence e = true) effs.

(** A write to MongoDB made by the worker itself (job records are written
    through the [Job] methods, [ESaveRetry] and [ESaveStatus]). *)
Definition is_db_write (e : Effect) : bool :=
  match e with EMongoUpdate _ _ _ _ _ _ => true | _ => false end.

(** The configuration field of a heartbeat write. *)
Definition written_config (e : Effect) : option (gmap string PyVal) :=
  match e with
  | EMongoUpdate _ _ _ doc _ _ => Some (hb_config doc)
  | _ => None
  end.

(** A heartbeat upsert or a log flush in the effect trace. *)
Definition is_report (e : Effect) : bool :=
  match e with EMongoUpdate _ _ _ _ _ _ | EFlushLogs _ => true | _ => false end.

(** A [gevent_pool.spawn] call in the effect trace. *)
Definition is_spawn (e : Effect) : bool :=
  match e with ESpawn _ _ => true | _ => false end.

(** ** [Worker.make_name] (lines 91-93) *)

(** [s.split(".")[0]]: the text of [s] before its first ["."], or all of
    [s] when it has none. *)
Fixpoint first_label (s : string) : string :=
  match s with
  | EmptyString => EmptyString
  | String c rest =>
      if Ascii.eqb c "."%char then EmptyString else String c (first_label rest)
  end.

(** ["%s.%s" % (socket.gethostname().split(".")[0], os.getpid())]; the host
    name and the process id are read from the environment. *)
Definition make_name (hostname : string) (pid : nat) : string :=
  first_label hostname ++ "." ++ pretty (N.of_nat pid).

(** ** The test tasks of mrq/basetasks/tests/general.py *)

(** Built-in exception classes raised by the interpreter. Both derive from
    [Exception] (through [StandardError]), which is all the handlers of
    [perform_job] look at. *)
Definition TypeError : ExcClass := UserException 0.
Definition IOError : ExcClass := UserException 1.

(** The number an [int] or a [bool] (an [int] subclass) stands for. *)
Definition py_num (v : PyVal) : option Z :=
  match v with
  | PyInt z => Some z
  | PyBool b => Some (if b then 1%Z else 0%Z)
  | _ => None
  end.

(** Python 2's [x + y] on these values: [str] and [list] concatenation,
    integer addition for [int] and [bool] operands; any other pair raises
    [TypeError] ([None]). *)
Definition py_add (x y : PyVal) : option PyVal :=
  match x, y with
  | PyStr a, PyStr b => Some (PyStr (a ++ b))
  | PyList a, PyList b => Some (PyList (a ++ b)%list)
  | _, _ =>
      match py_num x, py_num y with
      | Some a, Some b => Some (PyInt (a + b)%Z)
      | _, _ => None
      end
  end.

(** Python 2's [time.sleep(v)]: a non-negative [int] or a [bool] sleeps and
    returns; a negative number raises [IOError] (EINVAL); any other value
    raises [TypeError]. *)
Definition time_sleep (v : PyVal) : option ExcClass :=
  match v with
  | PyInt z => if Z.ltb z 0 then Some IOError else None
  | PyBool _ => None
  | _ => Some TypeError
  end.

(** [params.get(k, d)]. *)
Definition param_get (params : gmap string PyVal) (k : string) (d : PyVal) : PyVal :=
  default d (params !! k).

(** How a task's [run] ends: it returns a value or raises an exception of a
    class. *)
Inductive TaskEnd :=
| TReturn (v : PyVal)
| TRaise (c : ExcClass).

(** A call of a task's [run]: the arguments of its [sleep] calls, in order,
    and how it ends. *)
Record TaskRun := {
  tr_sleeps : list PyVal;
  tr_end : TaskEnd
}.

(** [Add.run] (lines 9-18); the [log.info] calls are not modelled. *)
Definition add_run (params : gmap string PyVal) : TaskRun :=
  match py_add (param_get params "a" (PyInt 0)) (param_get params "b" (PyInt 0)) with
  | None => {| tr_sleeps := []; tr_end := TRaise TypeError |}
  | Some res =>
      let d := param_get params "sleep" (PyInt 0) in
      if py_truthy d then
        match time_sleep d with
        | Some c => {| tr_sleeps := [d]; tr_end := TRaise c |}
        | None => {| tr_sleeps := [d]; tr_end := TReturn res |}
        end
      else {| tr_sleeps := []; tr_end := TReturn res |}
  end.

(** * Properties *)

Local Open Scope nat_scope.

Lemma perform_job_effects gid j cx pr sr :
  (perform_job gid j cx pr sr).1.2 =
    ([ESetCurrentJob gid (Some (job_id j)); ETimeoutStart gid (jd_timeout (job_data j));
      EPerform gid (job_id j)]
     ++ match pr with Returns => [] | Raises c => (handle_exception j c sr).1 end
     ++ [ETimeoutCancel gid; ESetCurrentJob gid None])%list
  ∧ (perform_job gid j cx pr sr).2 =
      match pr with Returns => None | Raises c => (handle_exception j c sr).2 end
  ∧ (perform_job gid j cx pr sr).1.1 = delete gid (<[gid := j]> cx).
Proof.
  unfold perform_job, perform_job_prologue, perform_job_body, set_current_job.
  destruct pr as [|c]; [done|].
  destruct (handle_exception j c sr) as [h e]; done.
Qed.

(** C8: on every exit path of [perform_job] (the task returns, or raises any
    exception, and the handler's save returns or raises), the [finally]
    clause cancels the timeout armed for the job and unbinds the job from
    the slot, as the last two effects; no job is bound to the slot
    afterwards and the other slots' bindings are untouched. *)
Lemma perform_job_finally_cleans_slot gid j cx pr sr :
  get_current_job (perform_job gid j cx pr sr).1.1 gid = None
  ∧ (∀ gid', gid' ≠ gid →
       get_current_job (perform_job gid j cx pr sr).1.1 gid' = cx !! gid')
  ∧ ∃ mid, (perform_job gid j cx pr sr).1.2 =
      ([ESetCurrentJob gid (Some (job_id j)); ETimeoutStart gid (jd_timeout (job_data j))]
       ++ mid ++ [ETimeoutCancel gid; ESetCurrentJob gid None])%list.
Proof.
  destruct (perform_job_effects gid j cx pr sr) as (Heffs & _ & Hctx).
  unfold get_current_job. rewrite Hctx, Heffs. split; [|split].
  - apply lookup_delete_eq.
  - intros gid' Hne. rewrite lookup_delete_ne by done.
    rewrite lookup_insert_ne by done. done.
  - exists (EPerform gid (job_id j)
            :: match pr with Returns => [] | Raises c => (handle_exception j c sr).1 end).
    reflexivity.
Qed.

(** C10: the retry clause comes first: when the job's retry set lists
    [JobTimeoutException] (resp. [JobInterrupt]) and the task is cancelled
    by that exception, [save_retry] is the one persistence call, and no
    status "timeout" (resp. "interrupt") is saved. *)
Lemma retry_precedes_cancellation gid j cx c sr
    (Hc : c = JobTimeoutException ∨ c = JobInterrupt)
    (Hin : c ∈ jd_retry_on (job_data j)) :
  persistence_calls (perform_job gid j cx (Raises c) sr).1.2 = [ESaveRetry (job_id j) c].
Proof.
  destruct (perform_job_effects gid j cx (Raises c) sr) as (Heffs & _).
  rewrite Heffs. unfold handle_exception.
  assert (Hm : isinstance_any c (jd_retry_on (job_data j)) = true).
  { unfold isinstance_any. apply existsb_exists. exists c. split.
    - by apply list_elem_of_In.
    - unfold isinstance, ancestors. apply bool_decide_eq_true.
      destruct Hc as [-> | ->]; destruct mrq_exc_under_Exception; set_solver. }
  rewrite Hm. reflexivity.
Qed.

Lemma isinstance_timeout c :
  isinstance c JobTimeoutException = true ↔ c = JobTimeoutException.
Proof.
  unfold isinstance, ancestors. rewrite bool_decide_eq_true.
  destruct c; destruct mrq_exc_under_Exception; split; intros H;
    try set_solver; inversion H.
Qed.

Lemma isinstance_interrupt c :
  isinstance c JobInterrupt = true ↔ c = JobInterrupt.
Proof.
  unfold isinstance, ancestors. rewrite bool_decide_eq_true.
  destruct c; destruct mrq_exc_under_Exception; split; intros H;
    try set_solver; inversion H.
Qed.

(** C2 (as the code does it): for an exception of class [c] raised by the
    task, the handlers are tried in order: retry set first, then
    [JobTimeoutException], then [JobInterrupt], then [Exception]. Each of
    the first four cases makes exactly one persistence call, and nothing
    leaves the slot unless that call itself raises. An exception outside
    all four ([BaseException] subclasses such as [SystemExit] or
    [GreenletExit] not in the retry set) gets no persistence call and
    leaves the slot. *)
Lemma perform_job_failure_classification gid j cx c sr :
  let effs := (perform_job gid j cx (Raises c) sr).1.2 in
  let escaped := (perform_job gid j cx (Raises c) sr).2 in
  if isinstance_any c (jd_retry_on (job_data j)) then
    persistence_calls effs = [ESaveRetry (job_id j) c] ∧ escaped = raised sr
  else if decide (c = JobTimeoutException) then
    persistence_calls effs = [ESaveStatus (job_id j) "timeout"] ∧ escaped = raised sr
  else if decide (c = JobInterrupt) then
    persistence_calls effs = [ESaveStatus (job_id j) "interrupt"] ∧ escaped = raised sr
  else if isinstance c Exception then
    persistence_calls effs = [ESaveStatus (job_id j) "failed"] ∧ escaped = raised sr
  else
    persistence_calls effs = [] ∧ escaped = Some c.
Proof.
  destruct (perform_job_effects gid j cx (Raises c) sr) as (Heffs & Hesc & _).
  cbv zeta. rewrite Heffs, Hesc. unfold handle_exception.
  destruct (isinstance_any c (jd_retry_on (job_data j))); [done|].
  destruct (isinstance c JobTimeoutException) eqn:Ht.
  { apply isinstance_timeout in Ht. subst c. rewrite decide_True by done. done. }
  rewrite decide_False by (intros ->; rewrite (proj2 (isinstance_timeout _)) in Ht; done).
  destruct (isinstance c JobInterrupt) eqn:Hi.
  { apply isinstance_interrupt in Hi. subst c. rewrite decide_True by done. done. }
  rewrite decide_False by (intros ->; rewrite (proj2 (isinstance_interrupt _)) in Hi; done).
  destruct (isinstance c Exception); done.
Qed.

(** C3: the first SIGINT only raises [StopRequested] (and records that a
    graceful stop was asked for); a SIGINT once a graceful stop was asked
    for, and any SIGTERM, run [shutdown_now]: status "killing", a
    non-blocking kill of the pool with [JobInterrupt], then [StopRequested]. *)
Lemma signal_two_stage_shutdown (w : Worker) (Hfirst : graceful_stop w = false) :
  handle_signal SIGINT w = (set_graceful_stop true w, [], Raises StopRequested)
  ∧ (∀ w', graceful_stop w' = true →
       handle_signal SIGINT w' =
         (set_status "killing" w', [EStatus "killing"; EPoolKill JobInterrupt false],
          Raises StopRequested))
  ∧ graceful_stop (set_graceful_stop true w) = true
  ∧ (∀ w', handle_signal SIGTERM w' =
       (set_status "killing" w', [EStatus "killing"; EPoolKill JobInterrupt false],
        Raises StopRequested)).
Proof.
  unfold handle_signal, request_shutdown_graceful, shutdown_graceful, shutdown_now.
  rewrite Hfirst. split; [done|]. split; [|done].
  intros w' Hw'. rewrite Hw'. done.
Qed.

(** C7: the configuration written in a heartbeat holds only whitelisted
    keys, and two workers whose configurations agree on the whitelisted
    keys write the same configuration field. *)
Lemma report_worker_config_whitelist (w1 w2 : Worker) (p1 p2 : list Slot)
    (cx1 cx2 : gmap nat Job) (m1 m2 : Metrics) (l1 l2 : nat)
    (Hagree : ∀ k, k ∈ whitelisted_config → config w1 !! k = config w2 !! k) :
  (∀ cfg, written_config (report_worker w1 p1 cx1 m1 l1) = Some cfg →
     ∀ k v, cfg !! k = Some v → k ∈ whitelisted_config)
  ∧ written_config (report_worker w1 p1 cx1 m1 l1)
    = written_config (report_worker w2 p2 cx2 m2 l2).
Proof.
  simpl. split.
  - intros cfg [= <-] k v Hk. unfold config_snapshot in Hk.
    apply map_lookup_filter_Some in Hk. apply Hk.
  - f_equal. apply map_eq. intros k. unfold config_snapshot.
    rewrite !map_lookup_filter.
    destruct (decide (k ∈ whitelisted_config)) as [Hk|Hk].
    + rewrite Hagree by done. done.
    + destruct (config w1 !! k), (config w2 !! k); simpl;
        rewrite ?option_guard_False; done.
Qed.

(** ** [dequeue_jobs] *)

Lemma lpop_n_length (r : RedisStore) k n : length (lpop_n r k n).1 = n.
Proof.
  revert r. induction n as [|n IH]; intros r; [done|].
  simpl. destruct (lpop r k) as [x r1].
  specialize (IH r1). destruct (lpop_n r1 k n) as [xs r2]. simpl in *. lia.
Qed.

Lemma truthy_ids_spec (l : list (option string)) i :
  i ∈ truthy_ids l ↔ Some i ∈ l ∧ i ≠ "".
Proof.
  unfold truthy_ids. rewrite list_elem_of_omap. split.
  - intros (o & Ho & Hi). destruct o as [x|]; [|done].
    destruct (String.eqb_spec x "") as [_|Hx]; [done|]. injection Hi as ->. done.
  - intros [Hi Hne]. exists (Some i). split; [done|].
    destruct (String.eqb_spec i "") as [Heq|_]; [done|]. done.
Qed.

Lemma truthy_ids_length (l : list (option string)) : length (truthy_ids l) ≤ length l.
Proof.
  induction l as [|o l IH]; [simpl; lia|]. unfold truthy_ids in *.
  destruct o as [x|]; cbn [omap list_omap]; [destruct (String.eqb x "")|];
    simpl; lia.
Qed.

(** The shape of a successful [dequeue_jobs] call. *)
Lemma dequeue_jobs_shape (r : RedisStore) keys n jobs r' effs :
  dequeue_jobs r keys n = Some (jobs, r', effs) →
  ∃ q jid r1, blpop r keys = Some (q, jid, r1)
  ∧ ((Nat.ltb 1 n = false ∧ jobs = [job_class jid q true] ∧ r' = r1
      ∧ effs = [EBlpop keys; EJobFetchStart jid])
     ∨ (Nat.ltb 1 n = true ∧ lpop_n r1 q (n - 1) = ((lpop_n r1 q (n - 1)).1, r')
        ∧ jobs = job_class jid q true
                 :: map (fun i => job_class i q true) (truthy_ids (lpop_n r1 q (n - 1)).1)
        ∧ effs = ([EBlpop keys; EJobFetchStart jid] ++ repeat (ELpop q) (n - 1)
                  ++ [EPipelineExecute]
                  ++ map EJobFetchStart (truthy_ids (lpop_n r1 q (n - 1)).1))%list)).
Proof.
  unfold dequeue_jobs. intros Hd.
  destruct (blpop r keys) as [[[q jid] r1]|]; [|discriminate].
  exists q, jid, r1. split; [done|].
  destruct (Nat.ltb 1 n) eqn:E.
  - right. destruct (lpop_n r1 q (n - 1)) as [replies r2] eqn:El.
    injection Hd as <- <- <-. simpl. done.
  - left. injection Hd as <- <- <-. done.
Qed.

(** Every successful call with [max_jobs >= 1] returns between 1 and
    [max_jobs] jobs. *)
Lemma dequeue_jobs_count (r : RedisStore) keys n jobs r' effs :
  1 ≤ n → dequeue_jobs r keys n = Some (jobs, r', effs) →
  1 ≤ length jobs ≤ n.
Proof.
  intros Hn Hd. apply dequeue_jobs_shape in Hd as (q & jid & r1 & _ & Hcase).
  destruct Hcase as [(_ & -> & _) | (Hlt & _ & -> & _)]; simpl; [lia|].
  apply Nat.ltb_lt in Hlt. rewrite length_map.
  pose proof (truthy_ids_length (lpop_n r1 q (n - 1)).1) as Hl.
  rewrite lpop_n_length in Hl. lia.
Qed.

(** C5: for [max_jobs = n >= 1], [dequeue_jobs] makes one blocking pop over
    all the worker's queues and materialises its job with [start=True]
    first; when [n > 1] it then pipelines exactly [n - 1] [LPOP]s against
    the queue of the first job and materialises a job for each non-empty
    reply only. The result has between 1 and [n] jobs, all from that queue
    and all started. *)
Lemma dequeue_jobs_batch (r : RedisStore) keys n jobs r' effs
    (Hn : 1 ≤ n) (Hd : dequeue_jobs r keys n = Some (jobs, r', effs)) :
  ∃ q jid r1, blpop r keys = Some (q, jid, r1)
  ∧ head jobs = Some (job_class jid q true)
  ∧ 1 ≤ length jobs ≤ n
  ∧ Forall (fun j => job_queue j = q ∧ job_start j = true) jobs
  ∧ (n = 1 → jobs = [job_class jid q true] ∧ r' = r1
             ∧ effs = [EBlpop keys; EJobFetchStart jid])
  ∧ (1 < n → ∃ replies,
       lpop_n r1 q (n - 1) = (replies, r') ∧ length replies = n - 1
       ∧ (∀ i, i ∈ truthy_ids replies ↔ Some i ∈ replies ∧ i ≠ "")
       ∧ tail jobs = map (fun i => job_class i q true) (truthy_ids replies)
       ∧ effs = ([EBlpop keys; EJobFetchStart jid] ++ repeat (ELpop q) (n - 1)
                 ++ [EPipelineExecute] ++ map EJobFetchStart (truthy_ids replies))%list).
Proof.
  pose proof (dequeue_jobs_count r keys n jobs r' effs Hn Hd) as Hcount.
  apply dequeue_jobs_shape in Hd as (q & jid & r1 & Hb & Hcase).
  exists q, jid, r1. split; [done|].
  destruct Hcase as [(Hlt & Hj & Hr & He) | (Hlt & Hl & Hj & He)].
  - apply Nat.ltb_ge in Hlt. subst jobs. split; [done|]. split; [done|].
    split; [by repeat constructor|]. split; [done|]. intros; lia.
  - apply Nat.ltb_lt in Hlt. subst jobs. split; [done|]. split; [done|].
    split.
    + constructor; [done|]. apply Forall_forall. intros x Hx.
      apply list_elem_of_In, in_map_iff in Hx as (i & <- & _). done.
    + split; [intros; lia|]. intros _.
      exists (lpop_n r1 q (n - 1)).1. split; [done|].
      split; [apply lpop_n_length|]. split; [intros i; apply truthy_ids_spec|].
      split; done.
Qed.

(** ** The pool-capacity invariant of [work_loop] *)

(** The pool never exceeds its size; the batch size fetched at line 241 and
    the jobs still to spawn at line 245 always fit in the free slots. *)
Definition pool_inv (s : World) : Prop :=
  length (pool s) ≤ pool_size (wk s) ∧
  match pc s with
  | PFetch f => 0 < f ∧ f + length (pool s) ≤ pool_size (wk s)
  | PDispatch js => length js + length (pool s) ≤ pool_size (wk s)
  | PCrashed e => e ≠ "PoolFull"
  | _ => True
  end.

Lemma handle_signal_pool_size sg w :
  pool_size (handle_signal sg w).1.1 = pool_size w
  ∧ greenlets (handle_signal sg w).1.1 = greenlets w
  ∧ wid (handle_signal sg w).1.1 = wid w
  ∧ (handle_signal sg w).2 = Raises StopRequested
  ∧ profiler (handle_signal sg w).1.1 = profiler w.
Proof.
  destruct sg; unfold handle_signal, request_shutdown_graceful, shutdown_now,
    shutdown_graceful; [destruct (graceful_stop w)|]; done.
Qed.

Lemma handle_signal_shape sg w :
  handle_signal sg w = (set_status "killing" w, [EStatus "killing"; EPoolKill JobInterrupt false],
                        Raises StopRequested)
  ∨ handle_signal sg w = (set_graceful_stop true w, [], Raises StopRequested).
Proof.
  destruct sg; unfold handle_signal, request_shutdown_graceful, shutdown_now,
    shutdown_graceful; [case_match|]; auto.
Qed.

Lemma killed_at_prefix st gs killed :
  killed_at st gs = Some killed → ∃ n, n ≤ length gs ∧ killed = take n gs.
Proof.
  destruct st as [|k|]; simpl.
  - intros [= <-]. exists 0. split; [lia|done].
  - destruct (Nat.ltb_spec k (length gs)); [|discriminate]. intros [= <-].
    exists (S k). split; [lia|done].
  - intros [= <-]. exists (length gs). split; [lia|]. by rewrite take_ge.
Qed.

Lemma finalize_interrupted_rest_shape s w effs st sg s' :
  finalize_interrupted_rest s w effs st sg = Some s' →
  ∃ n w3 hdl_effs, n ≤ length (greenlets w)
    ∧ (w3 = set_status "killing" w ∧ hdl_effs = [EStatus "killing"; EPoolKill JobInterrupt false]
       ∨ w3 = set_graceful_stop true w ∧ hdl_effs = [])
    ∧ s' = with_slots s w3 [] (kill_slots (pool s) (ctx s)).1 (PCrashed "uncaught")
             (effs ++ [EPoolKill JobInterrupt true] ++ (kill_slots (pool s) (ctx s)).2
              ++ map (fun g => EGreenletKill g true) (take n (greenlets w))
              ++ hdl_effs)%list.
Proof.
  unfold finalize_interrupted_rest.
  destruct (killed_at st (greenlets w)) as [killed|] eqn:Hk; [|discriminate].
  apply killed_at_prefix in Hk as (n & Hn & ->).
  destruct (kill_slots (pool s) (ctx s)) as [cx ke].
  destruct (handle_signal_shape sg w) as [Hs|Hs]; rewrite Hs; intros [= <-].
  - exists n, (set_status "killing" w), [EStatus "killing"; EPoolKill JobInterrupt false].
    split; [done|]. split; [by left|reflexivity].
  - exists n, (set_graceful_stop true w), []. split; [done|]. split; [by right|reflexivity].
Qed.

Lemma finalize_interrupted_shape s js st sg s' :
  finalize_interrupted s js st sg = Some s' →
  ∃ w2 sig_effs, (js = None → sig_effs = [])
    ∧ (w2 = wk s ∧ sig_effs = []
       ∨ w2 = set_status "killing" (wk s)
         ∧ sig_effs = [EStatus "killing"; EPoolKill JobInterrupt false]
       ∨ w2 = set_graceful_stop true (wk s) ∧ sig_effs = [])
    ∧ finalize_interrupted_rest s w2 sig_effs st sg = Some s'.
Proof.
  unfold finalize_interrupted. intros Hf. destruct js as [sg0|].
  - destruct (handle_signal_shape sg0 (wk s)) as [Hs|Hs];
      rewrite Hs in Hf; cbv beta iota in Hf; (case_decide; [|done]).
    + eexists _, _. split; [discriminate|]. split; [right; left; split; reflexivity|exact Hf].
    + eexists _, _. split; [discriminate|]. split; [right; right; split; reflexivity|exact Hf].
  - destruct (pool s); [|discriminate]. eexists _, _. split; [done|].
    split; [left; split; reflexivity|exact Hf].
Qed.

Lemma pool_inv_frame s s' :
  pool_size (wk s') = pool_size (wk s) → pc s' = pc s →
  length (pool s') ≤ length (pool s) → pool_inv s → pool_inv s'.
Proof.
  intros Hsz Hpc Hlen [Hle Hpc_inv]. unfold pool_inv. rewrite Hsz, Hpc.
  split; [lia|]. destruct (pc s); try done; lia.
Qed.

Lemma length_mark_running gid p : length (mark_running gid p) = length p.
Proof. apply length_map. Qed.

Lemma length_remove_slot gid p : length (remove_slot gid p) ≤ length p.
Proof. apply length_filter. Qed.

Lemma finalize_pool_inv s js m s' :
  finalize s js m = Some s' → pool_inv s'.
Proof.
  unfold finalize, finalize_rest. intros Hf.
  destruct js as [sg|].
  - destruct (handle_signal_pool_size sg (wk s)) as (_ & _ & _ & Hr & _).
    destruct (handle_signal sg (wk s)) as [[w2 effs] res].
    simpl in Hr. subst res. rewrite decide_True in Hf by done.
    destruct (kill_slots (pool s) (ctx s)). injection Hf as <-.
    split; simpl; lia.
  - destruct (pool s); [|discriminate].
    destruct (kill_slots [] (ctx s)). injection Hf as <-. split; simpl; lia.
Qed.

Lemma main_step_pool_inv s s' :
  pool_inv s → main_step s = Some s' → pool_inv s'.
Proof.
  intros [Hle Hinv]. unfold main_step. cbv zeta.
  destruct (pc s) as [| |f|[|j js]| | |e] eqn:Hpc; rewrite ?Hpc in Hinv;
    try discriminate.
  - destruct (cfg_get (config (wk s)) "scheduler"); intros [= <-];
      split; simpl; done.
  - unfold free_count. destruct (Nat.ltb_spec 0 (pool_size (wk s) - length (pool s)));
      intros [= <-]; split; simpl; lia.
  - destruct (dequeue_jobs (redis s) (redis_queues (wk s)) f)
      as [[[jobs r] effs]|] eqn:Hd; [|discriminate].
    intros [= <-]. destruct Hinv as [Hf Hfit].
    pose proof (dequeue_jobs_count (redis s) (redis_queues (wk s)) f jobs r effs
                  ltac:(lia) Hd). split; simpl; lia.
  - destruct (max_jobs_reached (wk s)); intros [= <-]; split; simpl; done.
  - unfold free_count. simpl in Hinv.
    destruct (Nat.ltb_spec 0 (pool_size (wk s) - length (pool s))); [|lia].
    intros [= <-]. split; simpl; rewrite length_app; simpl; lia.
Qed.

Lemma step_pool_inv l s s' : pool_inv s → step l s = Some s' → pool_inv s'.
Proof.
  intros Hinv. destruct l as [|js m|gid|gid pr sr|m| |sg|key jid|js k sg]; simpl.
  - by apply main_step_pool_inv.
  - destruct (pc s); try discriminate. apply finalize_pool_inv.
  - unfold slot_start. destruct (find_slot (pool s) gid) as [sl|]; [|discriminate].
    destruct (alive (pc s) && negb (sl_running sl)); [|discriminate].
    destruct (perform_job_prologue gid (sl_job sl) (ctx s)). intros [= <-].
    apply (pool_inv_frame s); simpl; rewrite ?length_mark_running; done.
  - unfold slot_end. destruct (find_slot (pool s) gid) as [sl|]; [|discriminate].
    destruct (alive (pc s) && sl_running sl); [|discriminate].
    destruct (perform_job_body gid (sl_job sl) (ctx s) pr sr) as [[cx effs] esc].
    intros [= <-]. apply (pool_inv_frame s); simpl; try done. apply length_remove_slot.
  - unfold monitoring_tick. case_match; [|discriminate]. intros [= <-].
    by apply (pool_inv_frame s).
  - unfold scheduler_tick. case_match; [|discriminate]. intros [= <-].
    by apply (pool_inv_frame s).
  - unfold signal_step. destruct Hinv as [Hle Hpc].
    destruct (handle_signal_pool_size sg (wk s)) as (Hsz & _ & _ & Hr & _).
    destruct (handle_signal sg (wk s)) as [[w1 effs] res]. simpl in Hsz, Hr. subst res.
    destruct (pc s); try discriminate; intros [= <-]; split; simpl; rewrite ?Hsz; done.
  - intros [= <-]. by apply (pool_inv_frame s).
  - destruct (pc s); try discriminate. intros Hf.
    apply finalize_interrupted_shape in Hf as (w2 & sig_effs & _ & _ & Hr).
    apply finalize_interrupted_rest_shape in Hr as (n & w3 & hdl & _ & _ & ->).
    split; simpl; [lia|done].
Qed.

Lemma run_pool_inv ls s s' : pool_inv s → run ls s = Some s' → pool_inv s'.
Proof.
  revert s. induction ls as [|l ls IH]; intros s Hinv; simpl.
  - by intros [= <-].
  - destruct (step l s) as [s1|] eqn:Hs; [|discriminate]. simpl.
    apply IH. by apply (step_pool_inv l s).
Qed.

Lemma init_pool_inv w r : pool_inv (init_world w r).
Proof. split; simpl; lia. Qed.

(** C6: in every state [work_loop] reaches, the pool's [PoolFull] error
    never happened; a batch is fetched only with [0 < free_pool_slots <=
    free_count()]; and whenever jobs remain to spawn, they fit in the free
    slots and the next move of the main greenlet spawns the first one. *)
Lemma work_loop_spawn_has_free_slot ls w r s
    (Hrun : run ls (init_world w r) = Some s) :
  pc s ≠ PCrashed "PoolFull"
  ∧ (∀ f, pc s = PFetch f → 0 < f ≤ free_count s)
  ∧ (∀ j js, pc s = PDispatch (j :: js) →
       length (j :: js) ≤ free_count s
       ∧ ∃ s', main_step s = Some s'
               ∧ pool s' = (pool s ++ [{| sl_gid := next_gid s; sl_job := j;
                                          sl_running := false |}])%list
               ∧ pc s' = PDispatch js).
Proof.
  destruct (run_pool_inv ls _ s (init_pool_inv w r) Hrun) as [Hle Hinv].
  unfold free_count. split; [|split].
  - intros Hpc. rewrite Hpc in Hinv. done.
  - intros f Hpc. rewrite Hpc in Hinv. lia.
  - intros j js Hpc. rewrite Hpc in Hinv. simpl in Hinv. split; [simpl; lia|].
    unfold main_step. rewrite Hpc. unfold free_count.
    destruct (Nat.ltb_spec 0 (pool_size (wk s) - length (pool s))); [|lia].
    eexists. split; [reflexivity|]. done.
Qed.

(** ** Background greenlets *)

Lemma main_step_greenlets s s' :
  pc s ≠ PInit → main_step s = Some s' →
  greenlets (wk s') = greenlets (wk s) ∧ pc s' ≠ PInit.
Proof.
  intros Hn. unfold main_step. cbv zeta.
  destruct (pc s) as [| |f|[|j js]| | |e]; try done.
  - destruct (Nat.ltb 0 (free_count s)); intros [= <-]; done.
  - destruct (dequeue_jobs (redis s) (redis_queues (wk s)) f) as [[[jobs r] effs]|];
      [|discriminate]. intros [= <-]. done.
  - destruct (max_jobs_reached (wk s)); intros [= <-]; done.
  - destruct (Nat.ltb 0 (free_count s)); intros [= <-]; done.
Qed.

Lemma finalize_greenlets s js m s' :
  finalize s js m = Some s' → greenlets (wk s') = greenlets (wk s) ∧ pc s' ≠ PInit.
Proof.
  unfold finalize, finalize_rest. intros Hf.
  destruct js as [sg|].
  - destruct (handle_signal_pool_size sg (wk s))
      as (_ & Hg & _ & Hr & _).
    destruct (handle_signal sg (wk s)) as [[w2 effs] res].
    simpl in Hr, Hg. subst res. rewrite decide_True in Hf by done.
    destruct (kill_slots (pool s) (ctx s)). injection Hf as <-. done.
  - destruct (pool s); [|discriminate].
    destruct (kill_slots [] (ctx s)). injection Hf as <-. done.
Qed.

Lemma step_greenlets l s s' :
  pc s ≠ PInit → step l s = Some s' →
  greenlets (wk s') = greenlets (wk s) ∧ pc s' ≠ PInit.
Proof.
  intros Hn. destruct l as [|js m|gid|gid pr sr|m| |sg|key jid|js k sg]; simpl.
  - by apply main_step_greenlets.
  - destruct (pc s); try discriminate. apply finalize_greenlets.
  - unfold slot_start. repeat case_match; try discriminate. intros [= <-]. done.
  - unfold slot_end. repeat case_match; try discriminate; intros [= <-]; done.
  - unfold monitoring_tick. case_match; [|discriminate]. intros [= <-]. done.
  - unfold scheduler_tick. case_match; [|discriminate]. intros [= <-]. done.
  - unfold signal_step.
    destruct (handle_signal_pool_size sg (wk s)) as (_ & Hg & _ & Hr & _).
    destruct (handle_signal sg (wk s)) as [[w1 effs] res]. simpl in Hg, Hr. subst res.
    destruct (pc s); try discriminate; intros [= <-]; done.
  - intros [= <-]. done.
  - destruct (pc s); try discriminate. intros Hf.
    apply finalize_interrupted_shape in Hf as (w2 & sig_effs & _ & Hw2 & Hr).
    apply finalize_interrupted_rest_shape in Hr as (n & w3 & hdl & _ & Hw3 & ->).
    simpl. split; [|done].
    destruct Hw3 as [[-> _]|[-> _]]; destruct Hw2 as [[-> _]|[[-> _]|[-> _]]]; done.
Qed.

Lemma step_from_init l s s' :
  pc s = PInit → step l s = Some s' →
  greenlets (wk s') = greenlets (wk s) ∧ (pc s' = PInit ∨ pc s' = PCrashed "KeyError")
  ∨ ∃ sched, (sched = [] ∨ sched = ["scheduler"])
             ∧ greenlets (wk s') = (greenlets (wk s) ++ "monitoring" :: sched)%list
             ∧ pc s' = PWait.
Proof.
  intros Hpc. destruct l as [|js m|gid|gid pr sr|m| |sg|key jid|js k sg]; simpl.
  - unfold main_step. rewrite Hpc.
    destruct (cfg_get (config (wk s)) "scheduler") as [sv|]; intros [= <-].
    + right. exists (if py_truthy sv then ["scheduler"] else []).
      split; [destruct (py_truthy sv); auto|]. done.
    + left. simpl. auto.
  - rewrite Hpc. discriminate.
  - unfold slot_start. repeat case_match; try discriminate. intros [= <-]. left; auto.
  - unfold slot_end. repeat case_match; try discriminate; intros [= <-]; left; auto.
  - unfold monitoring_tick. case_match; [|discriminate]. intros [= <-]. left; auto.
  - unfold scheduler_tick. case_match; [|discriminate]. intros [= <-]. left; auto.
  - unfold signal_step. rewrite Hpc. discriminate.
  - intros [= <-]. left; auto.
  - rewrite Hpc. discriminate.
Qed.

(** A crashed process does nothing more; only producers still push. *)
Lemma step_from_crashed l s s' e :
  pc s = PCrashed e → step l s = Some s' → pc s' = PCrashed e ∧ wk s' = wk s.
Proof.
  intros Hpc. destruct l as [|js m|gid|gid pr sr|m| |sg|key jid|js k sg]; simpl.
  - unfold main_step. rewrite Hpc. discriminate.
  - rewrite Hpc. discriminate.
  - unfold slot_start. rewrite Hpc. simpl. case_match; discriminate.
  - unfold slot_end. rewrite Hpc. simpl. case_match; discriminate.
  - unfold monitoring_tick. rewrite Hpc. simpl. discriminate.
  - unfold scheduler_tick. rewrite Hpc. simpl. discriminate.
  - unfold signal_step. rewrite Hpc. discriminate.
  - intros [= <-]. done.
  - rewrite Hpc. discriminate.
Qed.

(** What [self.greenlets] holds once [work_loop] has started. *)
Definition greenlets_inv (g0 : list string) (s : World) : Prop :=
  (greenlets (wk s) = g0 ∧ (pc s = PInit ∨ pc s = PCrashed "KeyError"))
  ∨ ∃ sched, (sched = [] ∨ sched = ["scheduler"])
             ∧ greenlets (wk s) = (g0 ++ "monitoring" :: sched)%list
             ∧ pc s ≠ PInit.

Lemma step_greenlets_inv g0 l s s' :
  greenlets_inv g0 s → step l s = Some s' → greenlets_inv g0 s'.
Proof.
  intros [[Hg [Hpc|Hpc]] | (sched & Hs & Hg & Hpc)] Hstep.
  - destruct (step_from_init l s s' Hpc Hstep)
      as [[Hg' Hpc'] | (sched & Hs & Hg' & Hpc')].
    + left. split; [congruence|done].
    + right. exists sched. split; [done|]. split; [congruence|]. rewrite Hpc'. done.
  - destruct (step_greenlets l s s') as [Hg' Hpc']; [rewrite Hpc; done|done|].
    left. split; [congruence|]. right.
    by destruct (step_from_crashed l s s' "KeyError" Hpc Hstep).
  - destruct (step_greenlets l s s') as [Hg' Hpc']; [done|done|].
    right. exists sched. split; [done|]. split; [congruence|done].
Qed.

Lemma run_greenlets_inv g0 ls s s' :
  greenlets_inv g0 s → run ls s = Some s' → greenlets_inv g0 s'.
Proof.
  revert s. induction ls as [|l ls IH]; intros s Hinv; simpl.
  - by intros [= <-].
  - destruct (step l s) as [s1|] eqn:Hs; [|discriminate]. simpl.
    apply IH. by apply (step_greenlets_inv g0 l s).
Qed.

(** Only the main greenlet, the finalizer and the signal handlers move [pc]. *)
Lemma step_pc_cases l s s' :
  step l s = Some s' →
  pc s' = pc s ∨ l = LMain ∨ (∃ js m, l = LFinalize js m) ∨ (∃ sg, l = LSignal sg)
  ∨ (∃ js st sg, l = LFinalizeInterrupted js st sg).
Proof.
  destruct l as [|js m|gid|gid pr sr|m| |sg|key jid|js k sg]; simpl.
  - intros _. right. left. done.
  - intros _. right. right. left. eauto.
  - unfold slot_start. repeat case_match; try discriminate. intros [= <-]. auto.
  - unfold slot_end. repeat case_match; try discriminate; intros [= <-]; auto.
  - unfold monitoring_tick. case_match; [|discriminate]. intros [= <-]. auto.
  - unfold scheduler_tick. case_match; [|discriminate]. intros [= <-]. auto.
  - intros _. right. right. right. left. eauto.
  - intros [= <-]. auto.
  - intros _. right. right. right. right. eauto.
Qed.

Lemma finalize_trace s js m s' :
  finalize s js m = Some s' →
  pc s' = PDone
  ∧ ∃ sig_effs kill_effs doc,
      (js = None → sig_effs = [])
      ∧ trace s' = (trace s ++ sig_effs
                    ++ [EPoolKill JobInterrupt true] ++ kill_effs
                    ++ map (fun g => EGreenletKill g true) (greenlets (wk s))
                    ++ [EMongoUpdate "mongodb_logs" "mrq_workers" (wid (wk s)) doc true 1;
                        EFlushLogs 1]
                    ++ (if profiler (wk s) then [EPrintStats] else []))%list.
Proof.
  unfold finalize, finalize_rest. intros Hf.
  destruct js as [sg|].
  - destruct (handle_signal_pool_size sg (wk s)) as (_ & Hg & Hw & Hr & Hp).
    destruct (handle_signal sg (wk s)) as [[w2 effs] res].
    simpl in Hr, Hg, Hw, Hp. subst res. rewrite decide_True in Hf by done.
    destruct (kill_slots (pool s) (ctx s)) as [cx ke]. injection Hf as <-.
    split; [done|]. eexists effs, ke, _. split; [done|]. unfold report_worker. simpl.
    rewrite ?Hg, ?Hw, ?Hp. reflexivity.
  - destruct (pool s); [|discriminate].
    destruct (kill_slots [] (ctx s)) as [cx ke]. injection Hf as <-.
    split; [done|]. eexists [], ke, _. split; [done|]. reflexivity.
Qed.

Abbreviation no_report := (Forall (fun e => is_report e = false)).

Lemma perform_job_body_no_report gid j cx pr sr :
  no_report (perform_job_body gid j cx pr sr).1.2.
Proof.
  unfold perform_job_body, handle_exception.
  destruct pr; [repeat constructor|].
  repeat case_match; simplify_eq; repeat constructor.
Qed.

Lemma kill_slots_no_report p cx : no_report (kill_slots p cx).2.
Proof.
  revert cx. induction p as [|sl p IH]; intros cx; simpl; [constructor|].
  case_match; [|apply IH].
  pose proof (perform_job_body_no_report (sl_gid sl) (sl_job sl) cx (Raises JobInterrupt) Returns)
    as Hb.
  destruct (perform_job_body (sl_gid sl) (sl_job sl) cx (Raises JobInterrupt) Returns)
    as [[cx1 effs] esc].
  specialize (IH cx1). destruct (kill_slots p cx1) as [cx2 effs2]. simpl in *.
  apply Forall_app. done.
Qed.

Lemma finalize_interrupted_trace s js st sg s' :
  finalize_interrupted s js st sg = Some s' →
  pc s' = PCrashed "uncaught"
  ∧ ∃ n sig_effs kill_effs hdl_effs,
      n ≤ length (greenlets (wk s))
      ∧ (js = None → sig_effs = [])
      ∧ trace s' = (trace s ++ sig_effs
                    ++ [EPoolKill JobInterrupt true] ++ kill_effs
                    ++ map (fun g => EGreenletKill g true) (take n (greenlets (wk s)))
                    ++ hdl_effs)%list
      ∧ no_report (sig_effs ++ kill_effs ++ hdl_effs).
Proof.
  intros Hf. apply finalize_interrupted_shape in Hf as (w2 & sig_effs & Hnone & Hw2 & Hr).
  apply finalize_interrupted_rest_shape in Hr as (n & w3 & hdl & Hk & Hw3 & ->).
  assert (Hg : greenlets w2 = greenlets (wk s))
    by (destruct Hw2 as [[-> _]|[[-> _]|[-> _]]]; done).
  rewrite Hg in Hk |- *. split; [done|].
  exists n, sig_effs, (kill_slots (pool s) (ctx s)).2, hdl.
  split; [done|]. split; [done|]. split; [reflexivity|].
  pose proof (kill_slots_no_report (pool s) (ctx s)) as Hkr.
  apply Forall_app. split; [destruct Hw2 as [[_ ->]|[[_ ->]|[_ ->]]]; repeat constructor|].
  apply Forall_app. split; [done|].
  destruct Hw3 as [[_ ->]|[_ ->]]; repeat constructor.
Qed.


(** ** Who writes the heartbeat *)

Abbreviation no_db_write := (Forall (fun e => is_db_write e = false)).

Lemma perform_job_body_no_write gid j cx pr sr :
  no_db_write (perform_job_body gid j cx pr sr).1.2.
Proof.
  unfold perform_job_body, handle_exception.
  destruct pr; [repeat constructor|].
  repeat case_match; simplify_eq; repeat constructor.
Qed.

Lemma kill_slots_no_write p cx : no_db_write (kill_slots p cx).2.
Proof.
  revert cx. induction p as [|sl p IH]; intros cx; simpl; [constructor|].
  case_match; [|apply IH].
  pose proof (perform_job_body_no_write (sl_gid sl) (sl_job sl) cx (Raises JobInterrupt) Returns) as Hb.
  destruct (perform_job_body (sl_gid sl) (sl_job sl) cx (Raises JobInterrupt) Returns)
    as [[cx1 effs] esc].
  specialize (IH cx1). destruct (kill_slots p cx1) as [cx2 effs2]. simpl in *.
  apply Forall_app. done.
Qed.

Lemma dequeue_jobs_no_write (r : RedisStore) keys n jobs r' effs :
  dequeue_jobs r keys n = Some (jobs, r', effs) → no_db_write effs.
Proof.
  intros Hd. apply dequeue_jobs_shape in Hd as (q & jid & r1 & _ & Hcase).
  destruct Hcase as [(_ & _ & _ & ->) | (_ & _ & _ & ->)]; [repeat constructor|].
  repeat (apply Forall_app; split); try (repeat constructor).
  - apply Forall_forall. intros x Hx. apply list_elem_of_In, repeat_spec in Hx. by subst.
  - apply Forall_forall. intros x Hx.
    apply list_elem_of_In, in_map_iff in Hx as (i & <- & _). done.
Qed.

Lemma main_step_no_write s s' :
  main_step s = Some s' → ∃ new, trace s' = (trace s ++ new)%list ∧ no_db_write new.
Proof.
  unfold main_step. cbv zeta.
  destruct (pc s) as [| |f|[|j js]| | |e]; try discriminate.
  - case_match; intros [= <-]; eexists; (split; [reflexivity|]).
    + constructor; [done|]. constructor; [done|].
      apply Forall_forall. intros x Hx.
      apply list_elem_of_In, in_map_iff in Hx as (g & <- & _). done.
    + constructor.
  - case_match; intros [= <-]; eexists; (split; [reflexivity|]); repeat constructor.
  - destruct (dequeue_jobs (redis s) (redis_queues (wk s)) f) as [[[jobs r] effs]|] eqn:Hd;
      [|discriminate].
    intros [= <-]. eexists. split; [reflexivity|]. by eapply dequeue_jobs_no_write.
  - case_match; intros [= <-]; eexists; (split; [reflexivity|]); repeat constructor.
  - case_match; intros [= <-]; eexists; (split; [reflexivity|]); repeat constructor.
Qed.

Lemma handle_signal_no_write sg w : no_db_write (handle_signal sg w).1.2.
Proof.
  destruct sg; unfold handle_signal, request_shutdown_graceful, shutdown_now,
    shutdown_graceful; [case_match|]; repeat constructor.
Qed.

Lemma finalize_new_effects s js m s' :
  finalize s js m = Some s' →
  ∃ sig_effs kill_effs doc,
    no_db_write sig_effs ∧ no_db_write kill_effs
    ∧ trace s' = (trace s ++ sig_effs
                  ++ [EPoolKill JobInterrupt true] ++ kill_effs
                  ++ map (fun g => EGreenletKill g true) (greenlets (wk s))
                  ++ [EMongoUpdate "mongodb_logs" "mrq_workers" (wid (wk s)) doc true 1;
                      EFlushLogs 1]
                  ++ (if profiler (wk s) then [EPrintStats] else []))%list.
Proof.
  unfold finalize, finalize_rest. intros Hf.
  pose proof (kill_slots_no_write (pool s) (ctx s)) as Hk.
  destruct js as [sg|].
  - destruct (handle_signal_pool_size sg (wk s))
      as (_ & Hg & Hw & Hr & Hp).
    pose proof (handle_signal_no_write sg (wk s)) as Hs.
    destruct (handle_signal sg (wk s)) as [[w2 effs] res].
    simpl in Hr, Hg, Hw, Hp, Hs. subst res. rewrite decide_True in Hf by done.
    destruct (kill_slots (pool s) (ctx s)) as [cx ke]. injection Hf as <-.
    eexists effs, ke, _. split; [done|]. split; [done|]. unfold report_worker. simpl.
    rewrite ?Hg, ?Hw, ?Hp. reflexivity.
  - destruct (pool s); [|discriminate].
    destruct (kill_slots [] (ctx s)) as [cx ke]. injection Hf as <-.
    eexists [], ke, _. split; [constructor|]. split; [done|]. reflexivity.
Qed.

Lemma no_db_write_vacuous (P : Effect → Prop) (l : list Effect) :
  no_db_write l → Forall (fun e => is_db_write e = true → P e) l.
Proof. intros H. eapply Forall_impl; [exact H|]. simpl. intros e -> ?. discriminate. Qed.

(** C9: every move of the worker only appends to the effect trace, and the
    only writes to MongoDB it appends are upserts into
    [mongodb_logs.mrq_workers] keyed by the worker's id, made by the
    monitoring greenlet (with [w=0]) or by the finalizer of [work_loop]
    (with [w=1]). *)
Lemma heartbeat_written_only_by_monitor_and_finalizer l s s'
    (Hstep : step l s = Some s') :
  ∃ new, trace s' = (trace s ++ new)%list
  ∧ ∀ e, e ∈ new → is_db_write e = true →
      ∃ doc wl, e = EMongoUpdate "mongodb_logs" "mrq_workers" (wid (wk s)) doc true wl
      ∧ ((∃ m, l = LMonitor m ∧ wl = 0) ∨ (∃ js m, l = LFinalize js m ∧ wl = 1)).
Proof.
  cut (∃ new, trace s' = (trace s ++ new)%list
        ∧ Forall (fun e => is_db_write e = true →
            ∃ doc wl, e = EMongoUpdate "mongodb_logs" "mrq_workers" (wid (wk s)) doc true wl
            ∧ ((∃ m, l = LMonitor m ∧ wl = 0) ∨ (∃ js m, l = LFinalize js m ∧ wl = 1))) new).
  { intros (new & Htr & Hall). exists new. split; [done|].
    intros e He. by apply (proj1 (Forall_forall _ _) Hall). }
  destruct l as [|js m|gid|gid pr sr|m| |sg|key jid|js k sg]; simpl in Hstep.
  - destruct (main_step_no_write s s' Hstep) as (new & Htr & Hn).
    exists new. split; [done|]. by apply no_db_write_vacuous.
  - destruct (pc s); try discriminate.
    destruct (finalize_new_effects s js m s' Hstep)
      as (sig_effs & kill_effs & doc & Hs & Hk & Htr).
    eexists. split; [exact Htr|].
    repeat (apply Forall_app; split); try (apply no_db_write_vacuous; done);
      try (repeat constructor; discriminate).
    + apply Forall_forall. intros x Hx.
      apply list_elem_of_In, in_map_iff in Hx as (g & <- & _). discriminate.
    + constructor; [|constructor; [discriminate|constructor]].
      intros _. exists doc, 1. split; [done|]. right. eauto.
    + case_match; repeat constructor; discriminate.
  - unfold slot_start in Hstep. repeat case_match; try discriminate. injection Hstep as <-.
    unfold perform_job_prologue in *. simplify_eq.
    eexists. split; [reflexivity|]. repeat constructor; discriminate.
  - unfold slot_end in Hstep. case_match; [|discriminate]. case_match; [|discriminate].
    pose proof (perform_job_body_no_write gid (sl_job s0) (ctx s) pr sr) as Hb.
    destruct (perform_job_body gid (sl_job s0) (ctx s) pr sr) as [[cx effs] esc].
    injection Hstep as <-. eexists. split; [reflexivity|].
    apply Forall_app. split; [by apply no_db_write_vacuous|].
    destruct esc; repeat constructor; discriminate.
  - unfold monitoring_tick in Hstep. case_match; [|discriminate]. injection Hstep as <-.
    eexists. split; [reflexivity|].
    constructor; [|constructor; [discriminate|constructor]].
    intros _. unfold report_worker. eexists _, 0. split; [reflexivity|]. left. eauto.
  - unfold scheduler_tick in Hstep. case_match; [|discriminate]. injection Hstep as <-.
    eexists. split; [reflexivity|]. repeat constructor; discriminate.
  - unfold signal_step in Hstep.
    pose proof (handle_signal_no_write sg (wk s)) as Hn.
    destruct (handle_signal sg (wk s)) as [[w1 effs] res]. simpl in Hn.
    destruct (pc s); try discriminate; destruct res; injection Hstep as <-;
      eexists; (split; [reflexivity|]); apply no_db_write_vacuous; try done;
      apply Forall_app; (split; [done|repeat constructor]).
  - injection Hstep as <-. exists []. split; [simpl; by rewrite app_nil_r|]. constructor.
  - destruct (pc s); try discriminate.
    apply finalize_interrupted_shape in Hstep as (w2 & sig_effs & _ & Hw2 & Hr).
    apply finalize_interrupted_rest_shape in Hr as (n & w3 & hdl & _ & Hw3 & ->).
    pose proof (kill_slots_no_write (pool s) (ctx s)) as Hk.
    eexists. split; [reflexivity|]. apply no_db_write_vacuous.
    repeat (apply Forall_app; split).
    + destruct Hw2 as [[_ ->]|[[_ ->]|[_ ->]]]; repeat constructor.
    + repeat constructor.
    + done.
    + apply Forall_forall. intros x Hx.
      apply list_elem_of_In, in_map_iff in Hx as (g & <- & _). done.
    + destruct Hw3 as [[_ ->]|[_ ->]]; repeat constructor.
Qed.
(** * Further properties of the worker *)

(** ** [Worker.__init__] *)

Lemma worker_init_Some cfg wid0 started dn w :
  worker_init cfg wid0 started dn = Some w →
  status w = "init" ∧ done_jobs w = 0 ∧ config w = cfg
  ∧ redis_queues w = map queue_redis_key (queues w)
  ∧ (∃ qv, cfg !! "queues" = Some qv ∧ py_queue_names qv = Some (queues w))
  ∧ (∃ nv, cfg !! "name" = Some nv
           ∧ name w = (if py_truthy nv then match nv with PyStr s => s | _ => dn end
                       else dn)).
Proof.
  unfold worker_init, cfg_get. intros H.
  destruct (cfg !! "queues") as [qv|] eqn:Hq; [|discriminate]. simpl in H.
  destruct (py_queue_names qv) as [qs|] eqn:Hqs; [|discriminate]. simpl in H.
  destruct (cfg !! "max_jobs" ≫= py_int_nat) as [mj|]; [|discriminate]. simpl in H.
  destruct (cfg !! "name") as [nv|] eqn:Hn; [|discriminate]. simpl in H.
  destruct (py_truthy nv) eqn:Ht;
    [destruct nv as [| | |s|]; try (simpl in H; discriminate)|]; simpl in H;
    (destruct (cfg !! "pool_size" ≫= py_int_nat); [|discriminate]); simpl in H;
    (destruct (cfg !! "quiet"); [|discriminate]); simpl in H;
    (destruct (cfg !! "profile"); [|discriminate]); simpl in H;
    injection H as <-; simpl;
    (repeat split; try done); eexists; (split; [reflexivity|]); rewrite ?Ht; done.
Qed.

(** A configuration key that [__init__] reads with [config[...]] and that
    is missing makes the construction fail with [KeyError]. *)
Lemma worker_init_missing_key cfg wid0 started dn k
    (Hk : k ∈ ["queues"; "max_jobs"; "name"; "pool_size"; "quiet"; "profile"])
    (Hmiss : cfg !! k = None) :
  worker_init cfg wid0 started dn = None.
Proof.
  unfold worker_init, cfg_get.
  repeat (apply elem_of_cons in Hk as [-> | Hk];
          [rewrite Hmiss; simpl;
           repeat (match goal with |- context [?m ≫= _] => destruct m; simpl; try done end); try reflexivity|]).
  set_solver.
Qed.

(** ** [Worker.make_name] *)

(** The default name is the host name up to its first dot, a dot, and the
    process id. *)
Lemma make_name_short_host hostname pid :
  ∃ host rest, hostname = host ++ rest
  ∧ (rest = "" ∨ ∃ r, rest = String "."%char r)
  ∧ ¬ In "."%char (list_ascii_of_string host)
  ∧ make_name hostname pid = host ++ "." ++ pretty (N.of_nat pid).
Proof.
  exists (first_label hostname). unfold make_name.
  induction hostname as [|c s IH]; simpl.
  - exists "". split; [done|]. split; [by left|]. split; [by intros []|]. done.
  - destruct (Ascii.eqb_spec c "."%char) as [->|Hc].
    + exists (String "."%char s). split; [done|]. split; [right; eauto|].
      split; [by intros []|]. done.
    + destruct IH as (rest & Hs & Hr & Hno & _). exists rest.
      split; [by rewrite Hs at 1|]. split; [done|].
      split; [simpl; intros [?|?]; auto|]. done.
Qed.

(** ** The heartbeat's stacks *)

Lemma cut_at_hub_spec frames :
  ∃ rest, frames = (cut_at_hub frames ++ rest)%list
  ∧ (∀ s, s ∈ cut_at_hub frames → ∀ i, substring i 14 s ≠ "/gevent/hub.py")
  ∧ (rest = [] ∨ ∃ s r i, rest = s :: r ∧ substring i 14 s = "/gevent/hub.py").
Proof.
  induction frames as [|f fs IH]; simpl.
  - exists []. split; [done|]. split; [set_solver|]. by left.
  - destruct (String.index 0 "/gevent/hub.py" f) as [i|] eqn:Hi.
    + exists (f :: fs). split; [done|]. split; [set_solver|].
      right. exists f, fs, i. split; [done|]. by apply index_correct1 in Hi.
    + destruct IH as (rest & Hfs & Hno & Hr). exists rest.
      split; [by rewrite Hfs at 1|]. split; [|done].
      intros s Hs i. apply elem_of_cons in Hs as [->|Hs]; [|by apply Hno].
      apply (index_correct3 0 i _ _ Hi); [discriminate|lia].
Qed.

(** The stack reported for a pool greenlet is [stack[1:]] cut before the
    first frame that mentions ["/gevent/hub.py"]. *)
Lemma slot_snapshot_stack ctx m sl :
  ∃ rest, tail (m_stack m (sl_gid sl)) = (ss_stack (slot_snapshot ctx m sl) ++ rest)%list
  ∧ (∀ s, s ∈ ss_stack (slot_snapshot ctx m sl) → ∀ i, substring i 14 s ≠ "/gevent/hub.py")
  ∧ (rest = [] ∨ ∃ s r i, rest = s :: r ∧ substring i 14 s = "/gevent/hub.py").
Proof.
  assert (Hst : ss_stack (slot_snapshot ctx m sl) = cut_at_hub (tail (m_stack m (sl_gid sl)))).
  { unfold slot_snapshot. by case_match. }
  rewrite Hst. apply cut_at_hub_spec.
Qed.

(** ** Redis pops *)

Lemma blpop_first_nonempty (r : RedisStore) keys q jid r1 :
  blpop r keys = Some (q, jid, r1) →
  ∃ pre post xs, keys = (pre ++ q :: post)%list
  ∧ (∀ k, k ∈ pre → r !! k = None ∨ r !! k = Some [])
  ∧ r !! q = Some (jid :: xs) ∧ r1 = <[q := xs]> r.
Proof.
  induction keys as [|k ks IH]; simpl; [discriminate|]. intros Hb.
  destruct (r !! k) as [[|x xs]|] eqn:Hk.
  - destruct (IH Hb) as (pre & post & xs & -> & Hpre & Hq & Hr1).
    exists (k :: pre), post, xs. split; [done|]. split; [|done].
    intros k' Hk'. apply elem_of_cons in Hk' as [->|Hk']; [by right|by apply Hpre].
  - injection Hb as <- <- <-. exists [], ks, xs. split; [done|]. split; [set_solver|]. done.
  - destruct (IH Hb) as (pre & post & xs & -> & Hpre & Hq & Hr1).
    exists (k :: pre), post, xs. split; [done|]. split; [|done].
    intros k' Hk'. apply elem_of_cons in Hk' as [->|Hk']; [by left|by apply Hpre].
Qed.

Lemma blpop_None (r : RedisStore) keys :
  blpop r keys = None ↔ ∀ k, k ∈ keys → r !! k = None ∨ r !! k = Some [].
Proof.
  induction keys as [|k ks IH]; simpl; [split; [set_solver|done]|].
  destruct (r !! k) as [[|x xs]|] eqn:Hk.
  - rewrite IH. split.
    + intros H k' Hk'. apply elem_of_cons in Hk' as [->|Hk']; [by right|by apply H].
    + intros H k' Hk'. apply H. by apply elem_of_cons; right.
  - split; [discriminate|]. intros H.
    destruct (H k) as [H'|H']; [by apply elem_of_cons; left|congruence|congruence].
  - rewrite IH. split.
    + intros H k' Hk'. apply elem_of_cons in Hk' as [->|Hk']; [by left|by apply H].
    + intros H k' Hk'. apply H. by apply elem_of_cons; right.
Qed.

(** For a non-empty list of queue keys, [dequeue_jobs] blocks (its [BLPOP]
    waits) exactly when every one of these queues is empty or missing. *)
Lemma dequeue_jobs_blocks_iff_empty (r : RedisStore) keys n
    (Hne : keys ≠ []) :
  dequeue_jobs r keys n = None ↔ ∀ k, k ∈ keys → r !! k = None ∨ r !! k = Some [].
Proof.
  rewrite <- blpop_None. unfold dequeue_jobs.
  destruct (blpop r keys) as [[[q jid] r1]|]; [|done].
  split; [|discriminate]. repeat case_match; discriminate.
Qed.

Lemma lpop_n_spec (r : RedisStore) k l m :
  r !! k = Some l →
  lpop_n r k m = ((map Some (take m l) ++ repeat None (m - length l))%list,
                  <[k := drop m l]> r).
Proof.
  revert r l. induction m as [|m IH]; intros r l Hk.
  - simpl. by rewrite insert_id.
  - cbn [lpop_n]. unfold lpop. rewrite Hk. destruct l as [|x xs].
    + rewrite (IH r [] Hk). rewrite !take_nil, !drop_nil. simpl.
      rewrite !Nat.sub_0_r. done.
    + rewrite (IH (<[k:=xs]> r) xs) by apply lookup_insert_eq. simpl.
      rewrite insert_insert_eq. done.
Qed.

Lemma truthy_ids_replies l m :
  truthy_ids ((map Some l ++ repeat None m)%list) = filter (fun i => i ≠ "") l.
Proof.
  unfold truthy_ids. rewrite omap_app.
  assert (Hn : omap (fun o => match o with
                               | Some s => if String.eqb s "" then None else Some s
                               | None => None
                               end) (repeat (@None string) m) = []).
  { induction m as [|m IH]; [done|]. cbn [repeat omap list_omap]. exact IH. }
  rewrite Hn, app_nil_r. induction l as [|i l IH]; [done|].
  cbn [map omap list_omap]. rewrite filter_cons.
  destruct (String.eqb_spec i "") as [->|Hi].
  - rewrite decide_False by auto. exact IH.
  - rewrite decide_True by done. rewrite IH. done.
Qed.

(** [dequeue_jobs(max_jobs=n)] with [n >= 1] takes its jobs from the first
    queue, in the worker's order, that holds an id: it removes the first
    [min(n, len)] ids of that queue, leaves the rest of it and every other
    queue as they were, and returns a job for the first id and for every
    non-empty id among the others, in queue order. *)
Lemma dequeue_jobs_pops_prefix (r : RedisStore) keys n jobs r' effs
    (Hn : 1 ≤ n) (Hd : dequeue_jobs r keys n = Some (jobs, r', effs)) :
  ∃ q x xs pre post, keys = (pre ++ q :: post)%list
  ∧ (∀ k, k ∈ pre → r !! k = None ∨ r !! k = Some [])
  ∧ r !! q = Some (x :: xs)
  ∧ r' = <[q := drop (n - 1) xs]> r
  ∧ map job_id jobs = x :: filter (fun i => i ≠ "") (take (n - 1) xs).
Proof.
  apply dequeue_jobs_shape in Hd as (q & jid & r1 & Hb & Hcase).
  destruct (blpop_first_nonempty r keys q jid r1 Hb)
    as (pre & post & xs & Hkeys & Hpre & Hq & Hr1).
  exists q, jid, xs, pre, post. do 3 (split; [done|]).
  destruct Hcase as [(Hlt & Hj & Hr & _) | (Hlt & Hl & Hj & _)].
  - apply Nat.ltb_ge in Hlt. assert (n = 1) as -> by lia. subst. done.
  - apply Nat.ltb_lt in Hlt.
    assert (Hr1q : r1 !! q = Some xs) by (subst r1; apply lookup_insert_eq).
    rewrite (lpop_n_spec r1 q xs (n - 1) Hr1q) in Hl, Hj. simpl in Hl.
    injection Hl as Hr'. split.
    + rewrite <- Hr', Hr1. apply insert_insert_eq.
    + rewrite Hj. simpl. f_equal. rewrite map_map. simpl. rewrite map_id.
      apply truthy_ids_replies.
Qed.

(** ** [perform_job] *)

(** A job whose retry set lists [BaseException] is saved for retry whatever
    it raises, a timeout and an interrupt included: the retry clause
    catches every exception before the other handlers. *)
Lemma retry_on_base_exception_catches_all gid j cx c sr
    (Hb : BaseException ∈ jd_retry_on (job_data j)) :
  persistence_calls (perform_job gid j cx (Raises c) sr).1.2 = [ESaveRetry (job_id j) c]
  ∧ (perform_job gid j cx (Raises c) sr).2 = raised sr.
Proof.
  destruct (perform_job_effects gid j cx (Raises c) sr) as (He & Hx & _).
  rewrite He, Hx. unfold handle_exception.
  assert (Hm : isinstance_any c (jd_retry_on (job_data j)) = true).
  { apply existsb_exists. exists BaseException. split; [by apply list_elem_of_In|].
    unfold isinstance, ancestors. apply bool_decide_eq_true.
    destruct c; destruct mrq_exc_under_Exception; set_solver. }
  rewrite Hm. done.
Qed.

Lemma perform_job_body_ctx gid j cx pr sr :
  (perform_job_body gid j cx pr sr).1.1 = delete gid cx.
Proof.
  unfold perform_job_body. destruct pr as [|c]; [done|].
  by destruct (handle_exception j c sr).
Qed.

(** ** [Add.run] *)

(** With integer operands ([int] or [bool]; a missing one counts as 0) and a
    [sleep] parameter that is falsy or a non-negative integer, [Add] returns
    the sum, after sleeping once when [sleep] is truthy. *)
Lemma add_run_integers params x y
    (Ha : py_num (param_get params "a" (PyInt 0)) = Some x)
    (Hb : py_num (param_get params "b" (PyInt 0)) = Some y)
    (Hs : py_truthy (param_get params "sleep" (PyInt 0)) = false
          ∨ time_sleep (param_get params "sleep" (PyInt 0)) = None) :
  tr_end (add_run params) = TReturn (PyInt (x + y))
  ∧ tr_sleeps (add_run params) =
      if py_truthy (param_get params "sleep" (PyInt 0))
      then [param_get params "sleep" (PyInt 0)] else [].
Proof.
  unfold add_run.
  assert (Hadd : py_add (param_get params "a" (PyInt 0)) (param_get params "b" (PyInt 0))
                 = Some (PyInt (x + y))).
  { destruct (param_get params "a" (PyInt 0)) as [| | | |]; try discriminate;
    destruct (param_get params "b" (PyInt 0)) as [| | | |]; try discriminate;
    simpl in *; simplify_eq; done. }
  rewrite Hadd. cbv zeta.
  destruct (py_truthy (param_get params "sleep" (PyInt 0))) eqn:Ht; [|done].
  destruct Hs as [Hs|Hs]; [congruence|]. rewrite Hs. done.
Qed.

(** A string operand next to a number (a missing operand counts as the
    number 0) makes [Add] raise [TypeError] before any sleep. *)
Lemma add_run_string_and_number params s y
    (Ha : param_get params "a" (PyInt 0) = PyStr s)
    (Hb : py_num (param_get params "b" (PyInt 0)) = Some y) :
  add_run params = {| tr_sleeps := []; tr_end := TRaise TypeError |}.
Proof.
  unfold add_run. rewrite Ha.
  destruct (param_get params "b" (PyInt 0)); try discriminate; done.
Qed.

(** ** What [work_loop] keeps *)

Abbreviation no_spawn := (Forall (fun e => is_spawn e = false)).

Lemma perform_job_body_no_spawn gid j cx pr sr :
  no_spawn (perform_job_body gid j cx pr sr).1.2.
Proof.
  unfold perform_job_body, handle_exception.
  destruct pr; [repeat constructor|].
  repeat case_match; simplify_eq; repeat constructor.
Qed.

Lemma kill_slots_no_spawn p cx : no_spawn (kill_slots p cx).2.
Proof.
  revert cx. induction p as [|sl p IH]; intros cx; simpl; [constructor|].
  case_match; [|apply IH].
  pose proof (perform_job_body_no_spawn (sl_gid sl) (sl_job sl) cx (Raises JobInterrupt) Returns) as Hb.
  destruct (perform_job_body (sl_gid sl) (sl_job sl) cx (Raises JobInterrupt) Returns)
    as [[cx1 effs] esc].
  specialize (IH cx1). destruct (kill_slots p cx1) as [cx2 effs2]. simpl in *.
  apply Forall_app. done.
Qed.

Lemma dequeue_jobs_no_spawn (r : RedisStore) keys n jobs r' effs :
  dequeue_jobs r keys n = Some (jobs, r', effs) → no_spawn effs.
Proof.
  intros Hd. apply dequeue_jobs_shape in Hd as (q & jid & r1 & _ & Hcase).
  destruct Hcase as [(_ & _ & _ & ->) | (_ & _ & _ & ->)]; [repeat constructor|].
  repeat (apply Forall_app; split); try (repeat constructor).
  - apply Forall_forall. intros x Hx. apply list_elem_of_In, repeat_spec in Hx. by subst.
  - apply Forall_forall. intros x Hx.
    apply list_elem_of_In, in_map_iff in Hx as (i & <- & _). done.
Qed.

Lemma spawn_count_app tr new :
  no_spawn new →
  length (filter (fun e => is_spawn e = true) (tr ++ new)%list) =
  length (filter (fun e => is_spawn e = true) tr).
Proof.
  intros H. rewrite filter_app, length_app.
  assert (Hn : filter (fun e => is_spawn e = true) new = []).
  { induction H as [|x l Hx _ IH]; [done|].
    rewrite filter_cons, decide_False by congruence. exact IH. }
  rewrite Hn. simpl. lia.
Qed.

Lemma find_slot_Some p gid sl : find_slot p gid = Some sl → sl ∈ p ∧ sl_gid sl = gid.
Proof.
  unfold find_slot. intros H.
  assert (Hx : sl ∈ filter (fun sl => sl_gid sl = gid) p).
  { destruct (filter (fun sl => sl_gid sl = gid) p); simplify_eq/=. set_solver. }
  apply list_elem_of_filter in Hx as [? ?]. done.
Qed.

Lemma map_gid_mark_running gid p : map sl_gid (mark_running gid p) = map sl_gid p.
Proof.
  unfold mark_running. rewrite map_map. apply map_ext. intros sl. by case_match.
Qed.

Lemma elem_of_mark_running gid p sl' :
  sl' ∈ mark_running gid p ↔
  ∃ sl, sl ∈ p ∧ sl' = if Nat.eqb (sl_gid sl) gid
                        then {| sl_gid := sl_gid sl; sl_job := sl_job sl; sl_running := true |}
                        else sl.
Proof.
  unfold mark_running. rewrite list_elem_of_In, in_map_iff.
  split; intros (sl & H1 & H2); exists sl; rewrite ?list_elem_of_In in *; auto.
Qed.

Lemma elem_of_remove_slot gid p sl : sl ∈ remove_slot gid p ↔ sl_gid sl ≠ gid ∧ sl ∈ p.
Proof. unfold remove_slot. by rewrite list_elem_of_filter. Qed.

Lemma elem_of_map_gid p sl : sl ∈ p → sl_gid sl ∈ map sl_gid p.
Proof. intros H. apply list_elem_of_In, in_map. by apply list_elem_of_In. Qed.

Lemma NoDup_map_gid_inj p sl1 sl2 :
  NoDup (map sl_gid p) → sl1 ∈ p → sl2 ∈ p → sl_gid sl1 = sl_gid sl2 → sl1 = sl2.
Proof.
  induction p as [|sl p IH]; [set_solver|]. simpl. rewrite NoDup_cons.
  intros [Hn Hnd] H1 H2 Heq.
  apply elem_of_cons in H1 as [->|H1]; apply elem_of_cons in H2 as [->|H2]; auto.
  - exfalso. apply Hn. rewrite Heq. by apply elem_of_map_gid.
  - exfalso. apply Hn. rewrite <- Heq. by apply elem_of_map_gid.
Qed.

Lemma NoDup_remove_slot gid p :
  NoDup (map sl_gid p) → NoDup (map sl_gid (remove_slot gid p)).
Proof.
  induction p as [|sl p IH]; [done|]. simpl. rewrite NoDup_cons. intros [Hn Hnd].
  unfold remove_slot. rewrite filter_cons. fold (remove_slot gid p).
  case_decide; [|by apply IH]. simpl. apply NoDup_cons. split; [|by apply IH].
  intros Hin. apply Hn. apply list_elem_of_In, in_map_iff in Hin as (x & Hx & Hin).
  apply list_elem_of_In, elem_of_remove_slot in Hin as [_ Hin]. rewrite <- Hx.
  by apply elem_of_map_gid.
Qed.

Lemma kill_slots_ctx p cx gid :
  (kill_slots p cx).1 !! gid =
    if existsb (fun sl => sl_running sl && Nat.eqb (sl_gid sl) gid) p then None
    else cx !! gid.
Proof.
  revert cx. induction p as [|sl p IH]; intros cx; [done|]. simpl.
  destruct (sl_running sl) eqn:Hr; simpl; [|apply IH].
  pose proof (perform_job_body_ctx (sl_gid sl) (sl_job sl) cx (Raises JobInterrupt) Returns) as Hc.
  destruct (perform_job_body (sl_gid sl) (sl_job sl) cx (Raises JobInterrupt) Returns)
    as [[cx1 effs] esc]. simpl in Hc. subst cx1.
  specialize (IH (delete (sl_gid sl) cx)).
  destruct (kill_slots p (delete (sl_gid sl) cx)) as [cx2 effs2]. simpl in *. rewrite IH.
  destruct (Nat.eqb_spec (sl_gid sl) gid) as [<-|Hne]; simpl.
  - rewrite lookup_delete_eq. by case_match.
  - rewrite lookup_delete_ne by done. done.
Qed.

Definition status_ok (st : string) : Prop :=
  st = "init" ∨ st = "started" ∨ st = "killing" ∨ st = "stopping".

(** What every state reached by [work_loop] from a fresh worker satisfies:
    [done_jobs] counts the spawns, which number the pool greenlets; the
    greenlets of the pool have distinct ids; a job is bound to a greenlet
    exactly while it runs [perform_job]; the status is one the code sets;
    it is "stopping" while the [finally] clause waits in the join; after the
    finalizer, or once a signal has interrupted it, the pool is empty. *)
Definition loop_inv (s : World) : Prop :=
  done_jobs (wk s) = next_gid s
  ∧ length (filter (fun e => is_spawn e = true) (trace s)) = next_gid s
  ∧ NoDup (map sl_gid (pool s))
  ∧ Forall (fun sl => sl_gid sl < next_gid s) (pool s)
  ∧ (∀ gid j, ctx s !! gid = Some j ↔
       ∃ sl, sl ∈ pool s ∧ sl_gid sl = gid ∧ sl_running sl = true ∧ sl_job sl = j)
  ∧ status_ok (status (wk s))
  ∧ (pc s = PFinalize → status (wk s) = "stopping")
  ∧ (pc s = PDone ∨ pc s = PCrashed "uncaught" →
     pool s = [] ∧ (status (wk s) = "stopping" ∨ status (wk s) = "killing")).

Lemma loop_inv_frame s s' new :
  loop_inv s →
  done_jobs (wk s') = done_jobs (wk s) →
  (status (wk s') = status (wk s) ∨ status (wk s') = "started"
   ∨ status (wk s') = "killing" ∨ status (wk s') = "stopping") →
  pool s' = pool s → next_gid s' = next_gid s → ctx s' = ctx s →
  trace s' = (trace s ++ new)%list → no_spawn new →
  (pc s' = PFinalize → status (wk s') = "stopping"
                       ∨ pc s = PFinalize ∧ status (wk s') = status (wk s)) →
  (pc s' = PDone ∨ pc s' = PCrashed "uncaught" →
   (pc s = PDone ∨ pc s = PCrashed "uncaught") ∧ status (wk s') = status (wk s)) →
  loop_inv s'.
Proof.
  intros (Hd & Hc & Hnd & Hlt & Hcx & Hst & Hfin & Hdone) Hd' Hst' Hp Hg Hx Ht Hn Hpf Hpc.
  unfold loop_inv. rewrite Hd', Hp, Hg, Hx, Ht, spawn_count_app by done.
  split; [done|]. split; [done|]. split; [done|]. split; [done|]. split; [done|].
  split; [|split].
  - destruct Hst' as [-> | [-> | [-> | ->]]]; [done|unfold status_ok; auto ..].
  - intros Hf'. destruct (Hpf Hf') as [H1|[H1 H2]]; [done|]. rewrite H2. by apply Hfin.
  - intros Hd''. destruct (Hpc Hd'') as [H1 H2]. rewrite H2. by apply Hdone.
Qed.

Ltac frame_close :=
  simpl; rewrite ?app_nil_r;
  first [ done | solve [auto] | intros ?; discriminate
        | intros [? | ?]; discriminate
        | intros; right; split; [assumption | reflexivity]
        | intros [? | ?]; (split; [auto | reflexivity]) ].

Lemma main_step_loop_inv s s' :
  loop_inv s → main_step s = Some s' → loop_inv s'.
Proof.
  intros Hinv. unfold main_step. cbv zeta.
  destruct (pc s) as [| |f|[|j js]| | |e] eqn:Hpc; try discriminate.
  - destruct (cfg_get (config (wk s)) "scheduler") as [sv|]; intros [= <-].
    + eapply (loop_inv_frame s _ ([EStatus "started"; EGreenletSpawn "monitoring"]
                                   ++ map EGreenletSpawn (if py_truthy sv then ["scheduler"] else []))%list);
        try frame_close.
      simpl. constructor; [done|]. constructor; [done|].
      apply Forall_forall. intros x Hx.
      apply list_elem_of_In, in_map_iff in Hx as (g & <- & _). done.
    + eapply (loop_inv_frame s _ []); frame_close.
  - destruct (Nat.ltb 0 (free_count s)); intros [= <-].
    + eapply (loop_inv_frame s _ []); frame_close.
    + eapply (loop_inv_frame s _ [ESleep]); try frame_close; repeat constructor.
  - destruct (dequeue_jobs (redis s) (redis_queues (wk s)) f) as [[[jobs r] effs]|] eqn:Hd;
      [|discriminate].
    intros [= <-]. eapply (loop_inv_frame s _ effs); try frame_close.
    by eapply dequeue_jobs_no_spawn.
  - destruct (max_jobs_reached (wk s)); intros [= <-].
    + eapply (loop_inv_frame s _ [EStatus "stopping"; EPoolJoin]); try frame_close.
      all: repeat constructor.
    + eapply (loop_inv_frame s _ []); frame_close.
  - destruct (Nat.ltb 0 (free_count s)); intros [= <-]; cycle 1.
    { eapply (loop_inv_frame s _ []); frame_close. }
    destruct Hinv as (Hd & Hc & Hnd & Hlt & Hcx & Hst & Hdone).
    unfold loop_inv; simpl. split; [lia|]. split.
    { rewrite filter_app, length_app. simpl. try rewrite decide_True by done. simpl. lia. }
    split.
    { rewrite map_app. apply NoDup_app. split; [done|]. split; [|simpl; apply NoDup_singleton].
      intros x Hx Hx'. apply list_elem_of_singleton in Hx' as ->.
      apply list_elem_of_In, in_map_iff in Hx as (sl & Heq & Hin).
      apply list_elem_of_In in Hin. apply (proj1 (Forall_forall _ _) Hlt) in Hin. simpl in Heq. lia. }
    split.
    { apply Forall_app. split; [|constructor; simpl; [lia|constructor]].
      eapply Forall_impl; [exact Hlt|]. simpl. intros sl ?. lia. }
    split.
    { intros gid j0. rewrite Hcx. split.
      - intros (sl & Hin & H1 & H2 & H3). exists sl. split; [set_solver|]. done.
      - intros (sl & Hin & H1 & H2 & H3). apply elem_of_app in Hin as [Hin|Hin].
        + exists sl. done.
        + apply list_elem_of_singleton in Hin as ->. simpl in H2. discriminate. }
    split; [done|]. split; [discriminate|]. intros [? | ?]; discriminate.
Qed.

Lemma loop_inv_after_kill s w c new :
  loop_inv s → done_jobs w = done_jobs (wk s) →
  (status w = "stopping" ∨ status w = "killing") →
  (c = PDone ∨ c = PCrashed "uncaught") →
  no_spawn new →
  loop_inv (with_slots s w [] (kill_slots (pool s) (ctx s)).1 c new).
Proof.
  intros (Hd & Hc & Hnd & Hlt & Hcx & Hst & Hfin & Hdone) Hdw Hsw Hpc Hn.
  pose proof (kill_slots_ctx (pool s) (ctx s)) as Hkc.
  destruct (kill_slots (pool s) (ctx s)) as [cx ke]. simpl in Hkc.
  unfold loop_inv; simpl. split; [lia|]. split; [by rewrite spawn_count_app|].
  split; [constructor|]. split; [constructor|]. split.
  - intros gid j. split; [|intros (sl & Hin & _); set_solver].
    rewrite Hkc. case_match; [discriminate|]. intros Hj.
    apply Hcx in Hj as (sl & Hin & H1 & H2 & _).
    assert (existsb (fun sl => sl_running sl && Nat.eqb (sl_gid sl) gid) (pool s) = true)
      as Hex; [|congruence].
    apply existsb_exists. exists sl. split; [by apply list_elem_of_In|].
    rewrite H2, H1, Nat.eqb_refl. done.
  - split; [unfold status_ok; destruct Hsw; auto|].
    split; [destruct Hpc as [-> | ->]; discriminate|]. intros _. done.
Qed.

Lemma finalize_shape s js m s' :
  finalize s js m = Some s' →
  ∃ w2 effs, s' = finalize_rest s w2 effs m
  ∧ (w2 = wk s ∨ w2 = set_status "killing" (wk s) ∨ w2 = set_graceful_stop true (wk s))
  ∧ no_spawn effs.
Proof.
  unfold finalize. intros Hf. destruct js as [sg|].
  - destruct (handle_signal_shape sg (wk s)) as [Hs|Hs];
      rewrite Hs, decide_True in Hf by done; injection Hf as <-.
    + exists (set_status "killing" (wk s)), [EStatus "killing"; EPoolKill JobInterrupt false].
      split; [reflexivity|]. split; [auto|repeat constructor].
    + exists (set_graceful_stop true (wk s)), [].
      split; [reflexivity|]. split; [auto|constructor].
  - destruct (pool s); [|discriminate]. injection Hf as <-.
    exists (wk s), []. split; [reflexivity|]. split; [auto|constructor].
Qed.

Lemma finalize_loop_inv s js m s' :
  loop_inv s → pc s = PFinalize → finalize s js m = Some s' → loop_inv s'.
Proof.
  intros Hinv Hpc Hf. pose proof Hinv as (_ & _ & _ & _ & _ & _ & Hfin & _).
  specialize (Hfin Hpc).
  apply finalize_shape in Hf as (w2 & effs & -> & Hw2 & Hn).
  unfold finalize_rest.
  pose proof (kill_slots_no_spawn (pool s) (ctx s)) as Hk.
  pose proof (loop_inv_after_kill s w2 PDone) as Hafter.
  destruct (kill_slots (pool s) (ctx s)) as [cx ke]. simpl in Hk, Hafter.
  apply Hafter; [done| | |auto|].
  - by destruct Hw2 as [->|[->| ->]].
  - destruct Hw2 as [->|[->| ->]]; simpl; auto.
  - repeat first [apply Forall_app; split | apply Forall_cons; split | done].
    all: try (case_match; repeat constructor).
    all: apply Forall_forall; intros x Hx;
      apply list_elem_of_In, in_map_iff in Hx as (g & <- & _); done.
Qed.

Lemma finalize_interrupted_loop_inv s js st sg s' :
  loop_inv s → pc s = PFinalize → finalize_interrupted s js st sg = Some s' → loop_inv s'.
Proof.
  intros Hinv Hpc Hf. pose proof Hinv as (_ & _ & _ & _ & _ & _ & Hfin & _).
  specialize (Hfin Hpc).
  apply finalize_interrupted_shape in Hf as (w2 & sig_effs & _ & Hw2 & Hr).
  apply finalize_interrupted_rest_shape in Hr as (n & w3 & hdl & _ & Hw3 & ->).
  apply loop_inv_after_kill; [done| | |auto|].
  - destruct Hw3 as [[-> _]|[-> _]]; destruct Hw2 as [[-> _]|[[-> _]|[-> _]]]; done.
  - destruct Hw3 as [[-> _]|[-> _]]; simpl; [auto|].
    destruct Hw2 as [[-> _]|[[-> _]|[-> _]]]; simpl; auto.
  - pose proof (kill_slots_no_spawn (pool s) (ctx s)) as Hk.
    repeat (apply Forall_app; split).
    + destruct Hw2 as [[_ ->]|[[_ ->]|[_ ->]]]; repeat constructor.
    + repeat constructor.
    + done.
    + apply Forall_forall. intros x Hx.
      apply list_elem_of_In, in_map_iff in Hx as (g & <- & _). done.
    + destruct Hw3 as [[_ ->]|[_ ->]]; repeat constructor.
Qed.

Lemma slot_start_loop_inv s gid s' :
  loop_inv s → slot_start s gid = Some s' → loop_inv s'.
Proof.
  intros (Hd & Hc & Hnd & Hlt & Hcx & Hst & Hfin & Hdone). unfold slot_start.
  destruct (find_slot (pool s) gid) as [sl|] eqn:Hf; [|discriminate].
  apply find_slot_Some in Hf as [Hsl Hgid].
  destruct (alive (pc s) && negb (sl_running sl)) eqn:Ha; [|discriminate].
  apply andb_true_iff in Ha as [Halive _].
  unfold perform_job_prologue, set_current_job. intros [= <-].
  unfold loop_inv; simpl. split; [done|]. split.
  { rewrite spawn_count_app; [done|]. repeat constructor. }
  split; [by rewrite map_gid_mark_running|]. split.
  { apply Forall_forall. intros sl' Hin. apply elem_of_mark_running in Hin as (sl0 & Hin & ->).
    apply (proj1 (Forall_forall _ _) Hlt) in Hin. by case_match. }
  split; [|split; [done|split; [done|]]].
  - intros gid' j. destruct (Nat.eq_dec gid' gid) as [->|Hne].
    + rewrite lookup_insert_eq. split.
      * intros [= <-]. eexists. split; [apply elem_of_mark_running; exists sl; split; [done|]|].
        { rewrite Hgid, Nat.eqb_refl. reflexivity. }
        simpl. done.
      * intros (sl' & Hin & H1 & H2 & H3). apply elem_of_mark_running in Hin as (sl0 & Hin & Heq).
        assert (Hg0 : sl_gid sl0 = gid) by (rewrite <- H1, Heq; by case_match).
        assert (sl0 = sl) as -> by (apply (NoDup_map_gid_inj (pool s)); congruence).
        rewrite <- H3, Heq, Hgid, Nat.eqb_refl. done.
    + rewrite lookup_insert_ne by done. rewrite Hcx. split.
      * intros (sl' & Hin & H1 & H2 & H3). exists sl'. split; [|done].
        apply elem_of_mark_running. exists sl'. split; [done|].
        rewrite H1. by destruct (Nat.eqb_spec gid' gid).
      * intros (sl' & Hin & H1 & H2 & H3). apply elem_of_mark_running in Hin as (sl0 & Hin & Heq).
        destruct (Nat.eqb_spec (sl_gid sl0) gid) as [Hg0|Hg0].
        { subst sl'. simpl in H1. congruence. }
        subst sl'. exists sl0. done.
  - intros [Hp|Hp]; rewrite Hp in Halive; discriminate.
Qed.

Lemma slot_end_loop_inv s gid pr sr s' :
  loop_inv s → slot_end s gid pr sr = Some s' → loop_inv s'.
Proof.
  intros (Hd & Hc & Hnd & Hlt & Hcx & Hst & Hfin & Hdone). unfold slot_end.
  destruct (find_slot (pool s) gid) as [sl|] eqn:Hf; [|discriminate].
  destruct (alive (pc s) && sl_running sl) eqn:Ha; [|discriminate].
  apply andb_true_iff in Ha as [Halive _].
  pose proof (perform_job_body_no_spawn gid (sl_job sl) (ctx s) pr sr) as Hn.
  pose proof (perform_job_body_ctx gid (sl_job sl) (ctx s) pr sr) as Hcx'.
  destruct (perform_job_body gid (sl_job sl) (ctx s) pr sr) as [[cx effs] esc].
  simpl in Hn, Hcx'. subst cx. intros [= <-].
  unfold loop_inv; simpl. split; [done|]. split.
  { rewrite spawn_count_app; [done|]. apply Forall_app. split; [done|].
    destruct esc; repeat constructor. }
  split; [by apply NoDup_remove_slot|]. split.
  { apply Forall_forall. intros sl' Hin. apply elem_of_remove_slot in Hin as [_ Hin].
    by apply (proj1 (Forall_forall _ _) Hlt) in Hin. }
  split; [|split; [done|split; [done|]]].
  - intros gid' j. destruct (Nat.eq_dec gid' gid) as [->|Hne].
    + rewrite lookup_delete_eq. split; [discriminate|].
      intros (sl' & Hin & H1 & _). apply elem_of_remove_slot in Hin as [Hne _]. done.
    + rewrite lookup_delete_ne by done. rewrite Hcx. split.
      * intros (sl' & Hin & H1 & H2). exists sl'. split; [|done].
        apply elem_of_remove_slot. split; [congruence|done].
      * intros (sl' & Hin & H1 & H2). apply elem_of_remove_slot in Hin as [_ Hin].
        exists sl'. done.
  - intros [Hp|Hp]; rewrite Hp in Halive; discriminate.
Qed.

Lemma step_loop_inv l s s' : loop_inv s → step l s = Some s' → loop_inv s'.
Proof.
  intros Hinv. destruct l as [|js m|gid|gid pr sr|m| |sg|key jid|js k sg]; simpl.
  - by apply main_step_loop_inv.
  - destruct (pc s) eqn:Hpc; try discriminate. by apply finalize_loop_inv.
  - by apply slot_start_loop_inv.
  - by apply slot_end_loop_inv.
  - unfold monitoring_tick. destruct (alive (pc s) && _) eqn:Ha; [|discriminate].
    apply andb_true_iff in Ha as [Ha _]. intros [= <-].
    eapply (loop_inv_frame s _ [report_worker (wk s) (pool s) (ctx s) m 0; EFlushLogs 0]);
      try frame_close; try solve [repeat constructor];
      simpl; intros Hp; rewrite Hp in Ha; discriminate.
  - unfold scheduler_tick. destruct (alive (pc s) && _) eqn:Ha; [|discriminate].
    apply andb_true_iff in Ha as [Ha _]. intros [= <-].
    eapply (loop_inv_frame s _ [ESchedulerCheck]); try frame_close; try solve [repeat constructor];
      simpl; intros Hp; rewrite Hp in Ha; discriminate.
  - unfold signal_step.
    destruct (pc s) eqn:Hpc; try discriminate;
      destruct (handle_signal_shape sg (wk s)) as [Hs|Hs]; rewrite Hs; intros [= <-].
    1,3: eapply (loop_inv_frame s _ ([EStatus "killing"; EPoolKill JobInterrupt false]
                                     ++ [EStatus "stopping"; EPoolJoin])%list);
      try frame_close; try solve [repeat constructor].
    all: eapply (loop_inv_frame s _ [EStatus "stopping"; EPoolJoin]);
      try frame_close; try solve [repeat constructor].
  - intros [= <-]. eapply (loop_inv_frame s _ []); frame_close.
  - destruct (pc s) eqn:Hpc; try discriminate. by apply finalize_interrupted_loop_inv.
Qed.

Lemma run_loop_inv ls s s' : loop_inv s → run ls s = Some s' → loop_inv s'.
Proof.
  revert s. induction ls as [|l ls IH]; intros s Hinv; simpl.
  - by intros [= <-].
  - destruct (step l s) as [s1|] eqn:Hs; [|discriminate]. simpl.
    apply IH. by apply (step_loop_inv l s).
Qed.

Lemma init_loop_inv cfg wid0 started dn w r :
  worker_init cfg wid0 started dn = Some w → loop_inv (init_world w r).
Proof.
  intros Hinit. destruct (worker_init_Some cfg wid0 started dn w Hinit) as (Hs & Hd & _).
  unfold loop_inv; simpl. rewrite Hd, Hs. split; [done|]. split; [done|].
  split; [constructor|]. split; [constructor|]. split.
  - intros gid j. rewrite lookup_empty. split; [discriminate|]. intros (sl & Hin & _). set_solver.
  - split; [unfold status_ok; auto|]. split; [discriminate|]. intros [? | ?]; discriminate.
Qed.

(** [done_jobs] counts the [gevent_pool.spawn] calls made so far, and each
    spawned greenlet got the next id. *)
Lemma work_loop_done_jobs_counts_spawns cfg wid0 started dn w r ls s
    (Hinit : worker_init cfg wid0 started dn = Some w)
    (Hrun : run ls (init_world w r) = Some s) :
  done_jobs (wk s) = length (filter (fun e => is_spawn e = true) (trace s))
  ∧ done_jobs (wk s) = next_gid s.
Proof.
  destruct (run_loop_inv ls _ s (init_loop_inv cfg wid0 started dn w r Hinit) Hrun)
    as (Hd & Hc & _). lia.
Qed.

(** A job is bound to a greenlet's slot-local state exactly while that
    greenlet of the pool runs [perform_job] for it; once the finalizer has
    run, the pool is empty and no job is bound anywhere. *)
Lemma work_loop_job_bound_iff_running cfg wid0 started dn w r ls s
    (Hinit : worker_init cfg wid0 started dn = Some w)
    (Hrun : run ls (init_world w r) = Some s) :
  (∀ gid j, get_current_job (ctx s) gid = Some j ↔
     ∃ sl, sl ∈ pool s ∧ sl_gid sl = gid ∧ sl_running sl = true ∧ sl_job sl = j)
  ∧ (pc s = PDone → pool s = [] ∧ ctx s = ∅).
Proof.
  destruct (run_loop_inv ls _ s (init_loop_inv cfg wid0 started dn w r Hinit) Hrun)
    as (_ & _ & _ & _ & Hcx & _ & _ & Hdone).
  split; [exact Hcx|]. intros Hp. destruct (Hdone (or_introl Hp)) as [Hpool _].
  split; [done|]. apply map_empty. intros gid.
  destruct (ctx s !! gid) as [j|] eqn:Hj; [|done].
  apply Hcx in Hj as (sl & Hin & _). rewrite Hpool in Hin. set_solver.
Qed.

Lemma slot_current_job s sl :
  loop_inv s → sl ∈ pool s →
  get_current_job (ctx s) (sl_gid sl) = if sl_running sl then Some (sl_job sl) else None.
Proof.
  intros (_ & _ & Hnd & _ & Hcx & _) Hin. unfold get_current_job.
  destruct (sl_running sl) eqn:Hr.
  - apply Hcx. exists sl. done.
  - destruct (ctx s !! sl_gid sl) as [j|] eqn:Hj; [|done].
    apply Hcx in Hj as (sl' & Hin' & H1 & H2 & _).
    assert (sl' = sl) as -> by (by apply (NoDup_map_gid_inj (pool s))). congruence.
Qed.

(** Each heartbeat of the monitoring greenlet has one entry per greenlet of
    the pool, in some order, with the id and path of the job the greenlet
    runs, and none for a greenlet that has not entered [perform_job] yet. *)
Lemma monitoring_heartbeat_lists_running_jobs cfg wid0 started dn w r ls s m s'
    (Hinit : worker_init cfg wid0 started dn = Some w)
    (Hrun : run ls (init_world w r) = Some s)
    (Hmon : step (LMonitor m) s = Some s') :
  ∃ doc, trace s' = (trace s ++ [EMongoUpdate "mongodb_logs" "mrq_workers" (wid (wk s)) doc true 0;
                                 EFlushLogs 0])%list
  ∧ map (fun e => (ss_id e, ss_path e)) (hb_jobs doc) ≡ₚ
      map (fun sl => if sl_running sl
                     then (Some (job_id (sl_job sl)), jd_path (job_data (sl_job sl)))
                     else (None, None)) (pool s).
Proof.
  pose proof (run_loop_inv ls _ s (init_loop_inv cfg wid0 started dn w r Hinit) Hrun) as Hinv.
  simpl in Hmon. unfold monitoring_tick in Hmon.
  destruct (alive (pc s) && _); [|discriminate]. injection Hmon as <-.
  eexists. split; [reflexivity|]. simpl. rewrite !map_map.
  apply reflexive_eq, map_ext_in. intros sl Hin. unfold slot_snapshot.
  rewrite (slot_current_job s sl Hinv) by (by apply list_elem_of_In).
  by destruct (sl_running sl).
Qed.

End WorkerModel.

Local Open Scope nat_scope.

(** * Sample runs

    Concrete configurations and Redis contents on which the statements
    above are instantiated, and on which [work_loop] is run. *)

(** Every job of the samples is a [tests.general.Add] task with the default
    timeout and no retry set. *)
Definition sample_payload (_ : string) : JobData :=
  {| jd_path := Some "tests.general.Add"; jd_datestarted := None;
     jd_timeout := 300; jd_retry_on := [] |}.

Definition sample_redis_key (q : string) : string := "mrq:q:" ++ q.

Definition sample_config (mj ps : Z) : gmap string PyVal :=
  list_to_map [("queues", PyList [PyStr "default"]); ("max_jobs", PyInt mj);
               ("pool_size", PyInt ps); ("name", PyStr "w1");
               ("quiet", PyBool true); ("profile", PyBool false);
               ("scheduler", PyBool false)].

(** Five jobs waiting in the [default] queue. *)
Definition sample_queue : gmap string (list string) :=
  {[ "mrq:q:default" := ["j1"; "j2"; "j3"; "j4"; "j5"] ]}.

(** [Worker(config).work_loop()] driven by the main greenlet only. *)
Definition sample_run (mj ps : Z) (ls : list Label) : option World :=
  w ← worker_init sample_redis_key (sample_config mj ps) 7 0 "host.1";
  run false sample_payload ls (init_world w sample_queue).

Definition loop_summary (s : World) : PC * nat * nat :=
  (pc s, done_jobs (wk s), max_jobs (wk s)).

Definition sample_worker_cfg (cfg : gmap string PyVal) : Worker :=
  {| config := cfg; datestarted := 0; status := "init"; queues := ["default"];
     redis_queues := ["mrq:q:default"]; done_jobs := 0; max_jobs := 5; wid := 7;
     name := "w1"; pool_size := 1; greenlets := []; profiler := false;
     graceful_stop := false |}.

Definition sample_worker : Worker := sample_worker_cfg (sample_config 5 1).

(** The same worker with a secret in a configuration key that is not
    whitelisted. *)
Definition sample_worker_secret : Worker :=
  sample_worker_cfg (<["redis" := PyStr "redis://:hunter2@db:6379/0"]> (sample_config 5 1)).

Definition sample_metrics : Metrics :=
  {| m_pid := 4242; m_cpu_user := 1; m_cpu_system := 0; m_cpu_percent := 3;
     m_rss := 512; m_now := 60; m_stack := fun _ => [] |}.

Definition sample_job : Job :=
  {| job_id := "j1"; job_queue := "mrq:q:default"; job_start := true;
     job_data := sample_payload "j1" |}.

Definition sample_retry_job : Job :=
  {| job_id := "j2"; job_queue := "mrq:q:default"; job_start := true;
     job_data := {| jd_path := Some "tests.general.Retry"; jd_datestarted := None;
                    jd_timeout := 300; jd_retry_on := [JobTimeoutException] |} |}.

(** C1 (as the code does it): line 249 breaks when [max_jobs >= done_jobs].
    With [max_jobs = 5], one pool slot and five queued jobs, the loop
    reaches the [finally] clause after its first batch, one job dispatched;
    with [max_jobs = 1], two slots and two jobs in the first batch, it does
    not break and goes back to waiting for a free slot. *)
Lemma work_loop_max_jobs_gate :
  option_map loop_summary (sample_run 5 1 [LMain; LMain; LMain; LMain; LMain])
    = Some (PFinalize, 1, 5)
  ∧ option_map loop_summary (sample_run 1 2 [LMain; LMain; LMain; LMain; LMain; LMain])
    = Some (PWait, 2, 1).
Proof. vm_compute. split; reflexivity. Qed.

(** C2 counterexample: an exception that is a [BaseException] but not an
    [Exception] (as [SystemExit] or [GreenletExit]) and is not in the retry
    set gets no persistence call and leaves the slot, on either side of the
    hierarchy mrq's own exceptions sit. *)
Lemma perform_job_base_exception_escapes :
  persistence_calls (perform_job false 0 sample_job ∅ (Raises (UserBaseException 0)) Returns).1.2 = []
  ∧ (perform_job false 0 sample_job ∅ (Raises (UserBaseException 0)) Returns).2
    = Some (UserBaseException 0)
  ∧ persistence_calls (perform_job true 0 sample_job ∅ (Raises (UserBaseException 0)) Returns).1.2 = []
  ∧ (perform_job true 0 sample_job ∅ (Raises (UserBaseException 0)) Returns).2
    = Some (UserBaseException 0).
Proof. vm_compute. repeat split. Qed.

Lemma signal_two_stage_shutdown_witness :
  graceful_stop sample_worker = false
  ∧ handle_signal SIGINT sample_worker
    = (set_graceful_stop true sample_worker, [], Raises StopRequested).
Proof.
  split; [reflexivity|].
  exact (proj1 (signal_two_stage_shutdown sample_worker ltac:(reflexivity))).
Defined.

Lemma report_worker_config_whitelist_witness :
  config sample_worker !! "redis" = None
  ∧ written_config (report_worker sample_worker [] ∅ sample_metrics 0)
    = written_config (report_worker sample_worker_secret [] ∅ sample_metrics 0).
Proof.
  split; [vm_compute; reflexivity|].
  apply (proj2 (report_worker_config_whitelist sample_worker sample_worker_secret
                  [] [] ∅ ∅ sample_metrics sample_metrics 0 0
                  ltac:(intros k Hk; unfold whitelisted_config in Hk;
                        repeat (apply elem_of_cons in Hk as [-> | Hk];
                                [vm_compute; reflexivity|]);
                        set_solver))).
Defined.

Lemma dequeue_jobs_batch_witness :
  ∃ jobs r' effs,
    dequeue_jobs sample_payload sample_queue ["mrq:q:default"] 3 = Some (jobs, r', effs)
    ∧ 1 ≤ length jobs ≤ 3.
Proof.
  destruct (dequeue_jobs sample_payload sample_queue ["mrq:q:default"] 3)
    as [[[jobs r'] effs]|] eqn:Hd; [|vm_compute in Hd; discriminate].
  exists jobs, r', effs. split; [reflexivity|].
  destruct (dequeue_jobs_batch sample_payload sample_queue ["mrq:q:default"] 3
              jobs r' effs ltac:(lia) Hd) as (q & jid & r1 & _ & _ & Hc & _).
  exact Hc.
Defined.

Lemma work_loop_spawn_has_free_slot_witness :
  ∃ s, run false sample_payload [LMain; LMain; LMain] (init_world sample_worker sample_queue)
       = Some s
  ∧ pc s ≠ PCrashed "PoolFull"
  ∧ (∀ j js, pc s = PDispatch (j :: js) → length (j :: js) ≤ free_count s).
Proof.
  destruct (run false sample_payload [LMain; LMain; LMain] (init_world sample_worker sample_queue))
    as [s|] eqn:Hrun; [|vm_compute in Hrun; discriminate].
  exists s. split; [reflexivity|].
  destruct (work_loop_spawn_has_free_slot false sample_payload _ _ _ s Hrun)
    as (H1 & _ & H3).
  split; [exact H1|]. intros j js Hpc. exact (proj1 (H3 j js Hpc)).
Defined.



Lemma heartbeat_written_only_by_monitor_and_finalizer_witness :
  ∃ s s', run false sample_payload [LMain] (init_world sample_worker sample_queue) = Some s
  ∧ step false sample_payload (LMonitor sample_metrics) s = Some s'
  ∧ ∃ new, trace s' = (trace s ++ new)%list.
Proof.
  destruct (run false sample_payload [LMain] (init_world sample_worker sample_queue))
    as [s|] eqn:Hs; [|vm_compute in Hs; discriminate].
  destruct (step false sample_payload (LMonitor sample_metrics) s) as [s'|] eqn:Hst;
    [|vm_compute in Hs; injection Hs as <-; vm_compute in Hst; discriminate].
  exists s, s'. split; [reflexivity|]. split; [exact Hst|].
  destruct (heartbeat_written_only_by_monitor_and_finalizer false sample_payload _ _ _ Hst)
    as (new & Htr & _).
  exists new. exact Htr.
Defined.

Lemma retry_precedes_cancellation_witness :
  persistence_calls
    (perform_job false 0 sample_retry_job ∅ (Raises JobTimeoutException) Returns).1.2
  = [ESaveRetry "j2" JobTimeoutException].
Proof.
  apply (retry_precedes_cancellation false 0 sample_retry_job ∅ JobTimeoutException Returns).
  - left. reflexivity.
  - apply elem_of_cons. left. reflexivity.
Defined.

(** * Instances of the further properties *)

(** A job of the [tests.general.Retry] kind whose retry set is
    [BaseException]. *)
Definition sample_retry_all_job : Job :=
  {| job_id := "j3"; job_queue := "mrq:q:default"; job_start := true;
     job_data := {| jd_path := Some "tests.general.Retry"; jd_datestarted := None;
                    jd_timeout := 300; jd_retry_on := [BaseException] |} |}.

Definition sample_add_params : gmap string PyVal :=
  list_to_map [("a", PyInt 2); ("b", PyInt 3)].

Definition sample_add_str_params : gmap string PyVal :=
  list_to_map [("a", PyStr "x"); ("sleep", PyInt 1)].

(** The main greenlet starts the worker, fetches one job, spawns it, and the
    spawned greenlet enters [perform_job]. *)
Definition sample_labels : list Label := [LMain; LMain; LMain; LMain; LSlotStart 0].

Ltac sample_world ls :=
  destruct (worker_init sample_redis_key (sample_config 5 1) 7 0 "host.1") as [w|] eqn:Hw;
    [|vm_compute in Hw; discriminate];
  destruct (run false sample_payload ls (init_world w sample_queue)) as [s|] eqn:Hs;
    [|vm_compute in Hw; injection Hw as <-; vm_compute in Hs; discriminate];
  exists w, s; split; [reflexivity|]; split; [exact Hs|].

Lemma worker_init_missing_key_witness :
  "quiet" ∈ ["queues"; "max_jobs"; "name"; "pool_size"; "quiet"; "profile"]
  ∧ delete "quiet" (sample_config 5 1) !! "quiet" = None
  ∧ worker_init sample_redis_key (delete "quiet" (sample_config 5 1)) 7 0 "host.1" = None.
Proof.
  split; [set_solver|]. split; [vm_compute; reflexivity|].
  apply (worker_init_missing_key sample_redis_key _ 7 0 "host.1" "quiet");
    [set_solver|vm_compute; reflexivity].
Defined.

Lemma dequeue_jobs_blocks_iff_empty_witness :
  ["mrq:q:default"] ≠ []
  ∧ (dequeue_jobs sample_payload {[ "mrq:q:default" := [] ]} ["mrq:q:default"] 3 = None
     ↔ ∀ k, k ∈ ["mrq:q:default"] →
         ({[ "mrq:q:default" := [] ]} : gmap string (list string)) !! k = None
         ∨ ({[ "mrq:q:default" := [] ]} : gmap string (list string)) !! k = Some []).
Proof.
  split; [discriminate|].
  apply (dequeue_jobs_blocks_iff_empty sample_payload _ _ 3). discriminate.
Defined.

Lemma dequeue_jobs_pops_prefix_witness :
  ∃ jobs r' effs,
    dequeue_jobs sample_payload sample_queue ["mrq:q:default"] 3 = Some (jobs, r', effs)
    ∧ r' = <[ "mrq:q:default" := ["j4"; "j5"] ]> sample_queue
    ∧ ∃ q x xs pre post, ["mrq:q:default"] = (pre ++ q :: post)%list
      ∧ (∀ k, k ∈ pre → sample_queue !! k = None ∨ sample_queue !! k = Some [])
      ∧ sample_queue !! q = Some (x :: xs)
      ∧ r' = <[q := drop (3 - 1) xs]> sample_queue
      ∧ map job_id jobs = x :: filter (fun i => i ≠ "") (take (3 - 1) xs).
Proof.
  destruct (dequeue_jobs sample_payload sample_queue ["mrq:q:default"] 3)
    as [[[jobs r'] effs]|] eqn:Hd; [|vm_compute in Hd; discriminate].
  exists jobs, r', effs. split; [reflexivity|].
  split; [vm_compute in Hd; injection Hd as _ <- _; reflexivity|].
  exact (dequeue_jobs_pops_prefix sample_payload sample_queue _ 3 jobs r' effs
           ltac:(lia) Hd).
Defined.

Lemma retry_on_base_exception_catches_all_witness :
  BaseException ∈ jd_retry_on (job_data sample_retry_all_job)
  ∧ persistence_calls
      (perform_job false 0 sample_retry_all_job ∅ (Raises JobTimeoutException) Returns).1.2
    = [ESaveRetry "j3" JobTimeoutException].
Proof.
  split; [by apply list_elem_of_singleton|].
  exact (proj1 (retry_on_base_exception_catches_all false 0 sample_retry_all_job ∅
                  JobTimeoutException Returns ltac:(by apply list_elem_of_singleton))).
Defined.

Lemma add_run_integers_witness :
  tr_end (add_run sample_add_params) = TReturn (PyInt 5) ∧ tr_sleeps (add_run sample_add_params) = [].
Proof.
  exact (add_run_integers sample_add_params 2 3 ltac:(vm_compute; reflexivity)
           ltac:(vm_compute; reflexivity) ltac:(left; vm_compute; reflexivity)).
Defined.

Lemma add_run_string_and_number_witness :
  add_run sample_add_str_params = {| tr_sleeps := []; tr_end := TRaise TypeError |}.
Proof.
  exact (add_run_string_and_number sample_add_str_params "x" 0
           ltac:(vm_compute; reflexivity) ltac:(vm_compute; reflexivity)).
Defined.

Lemma work_loop_done_jobs_counts_spawns_witness :
  ∃ w s, worker_init sample_redis_key (sample_config 5 1) 7 0 "host.1" = Some w
  ∧ run false sample_payload sample_labels (init_world w sample_queue) = Some s
  ∧ done_jobs (wk s) = length (filter (fun e => is_spawn e = true) (trace s))
  ∧ done_jobs (wk s) = next_gid s.
Proof.
  sample_world sample_labels.
  exact (work_loop_done_jobs_counts_spawns false sample_payload sample_redis_key _ 7 0 "host.1"
           w sample_queue sample_labels s Hw Hs).
Defined.

Lemma work_loop_job_bound_iff_running_witness :
  ∃ w s, worker_init sample_redis_key (sample_config 5 1) 7 0 "host.1" = Some w
  ∧ run false sample_payload sample_labels (init_world w sample_queue) = Some s
  ∧ (∀ gid j, get_current_job (ctx s) gid = Some j ↔
       ∃ sl, sl ∈ pool s ∧ sl_gid sl = gid ∧ sl_running sl = true ∧ sl_job sl = j).
Proof.
  sample_world sample_labels.
  exact (proj1 (work_loop_job_bound_iff_running false sample_payload sample_redis_key _ 7 0
                  "host.1" w sample_queue sample_labels s Hw Hs)).
Defined.

Lemma monitoring_heartbeat_lists_running_jobs_witness :
  ∃ w s, worker_init sample_redis_key (sample_config 5 1) 7 0 "host.1" = Some w
  ∧ run false sample_payload sample_labels (init_world w sample_queue) = Some s
  ∧ ∃ s', step false sample_payload (LMonitor sample_metrics) s = Some s'
    ∧ ∃ doc, map (fun e => (ss_id e, ss_path e)) (hb_jobs doc)
               ≡ₚ [(Some "j1", jd_path (sample_payload "j1"))]
      ∧ trace s' = (trace s ++ [EMongoUpdate "mongodb_logs" "mrq_workers" (wid (wk s)) doc true 0;
                                EFlushLogs 0])%list.
Proof.
  sample_world sample_labels.
  destruct (step false sample_payload (LMonitor sample_metrics) s) as [s'|] eqn:Hm;
    [|vm_compute in Hw; injection Hw as <-; vm_compute in Hs; injection Hs as <-;
      vm_compute in Hm; discriminate].
  exists s'. split; [reflexivity|].
  destruct (monitoring_heartbeat_lists_running_jobs false sample_payload sample_redis_key _ 7 0
              "host.1" w sample_queue sample_labels s sample_metrics s' Hw Hs Hm)
    as (doc & Ht & Hid).
  exists doc. split; [|exact Ht]. etransitivity; [exact Hid|].
  vm_compute in Hw. injection Hw as <-. vm_compute in Hs. injection Hs as <-. reflexivity.
Defined.
